(** * parse-sse: the Server-Sent Events transform stream of [index.js]

    A shallow embedding of [ServerSentEventTransformStream] (the closure state
    [buffer], [isFirstChunk], [event], [lastEventId], the [transform] and
    [flush] callbacks), of [createEvent], [dispatchEvent], [processField] and
    of [parseServerSentEvents], followed by the properties of the parser.

    JavaScript strings are sequences of UTF-16 code units; they are modelled
    as lists of code units so that U+FEFF is one character, as it is for
    [String.prototype.replace] and [split]. *)

From Stdlib Require Import String Ascii Bool NArith ZArith List Lia.
Import ListNotations.

Local Open Scope N_scope.

(** ** JavaScript strings and the builtins the parser calls *)

Module JS.

Definition char := N.
Definition jsstring := list char.

(** A string literal of the source, as code units. *)
Definition str (s : string) : jsstring :=
  map N_of_ascii (list_ascii_of_string s).

Definition CR : char := 13.
Definition LF : char := 10.
Definition NUL : char := 0.
Definition BOM : char := 65279. (* U+FEFF *)
Definition colon : char := 58.
Definition space : char := 32.

(** [s === t] on strings. *)
Fixpoint strictEquals (s t : jsstring) : bool :=
  match s, t with
  | [], [] => true
  | a :: s', b :: t' => (a =? b) && strictEquals s' t'
  | _, _ => false
  end.

(** [s.startsWith(p)] *)
Fixpoint startsWith (s p : jsstring) {struct p} : bool :=
  match p with
  | [] => true
  | c :: p' =>
      match s with
      | [] => false
      | x :: s' => (x =? c) && startsWith s' p'
      end
  end.

(** [s.endsWith(p)] *)
Definition endsWith (s p : jsstring) : bool :=
  startsWith (rev s) (rev p).

(** [s.indexOf(c)] for a one-character search string; [-1] when absent. *)
Fixpoint indexOf (s : jsstring) (c : char) : Z :=
  match s with
  | [] => (-1)%Z
  | x :: s' =>
      if x =? c then 0%Z
      else let i := indexOf s' c in
           if (i =? -1)%Z then (-1)%Z else (i + 1)%Z
  end.

(** [s.includes(c)] for a one-character search string. *)
Definition includes (s : jsstring) (c : char) : bool :=
  existsb (N.eqb c) s.

(** Relative index of [slice]: negative counts from the end, then clamped. *)
Definition relativeIndex (len i : Z) : Z :=
  if (i <? 0)%Z then Z.max (len + i) 0 else Z.min i len.

(** [s.slice(start)] ([stop = None]) and [s.slice(start, stop)]. *)
Definition slice (s : jsstring) (start : Z) (stop : option Z) : jsstring :=
  let len := Z.of_nat (List.length s) in
  let from := relativeIndex len start in
  let to := match stop with
            | None => len
            | Some e => relativeIndex len e
            end in
  firstn (Z.to_nat (to - from)) (skipn (Z.to_nat from) s).

(** [text.replace(/^\uFEFF/, '')]: the pattern is anchored at the start and
    has no [g] flag, so at most one leading U+FEFF is removed. *)
Definition replaceLeadingBOM (text : jsstring) : jsstring :=
  match text with
  | c :: rest => if c =? BOM then rest else text
  | [] => text
  end.

(** Puts a character in front of the first piece of a split. *)
Definition consFirst (c : char) (pieces : list jsstring) : list jsstring :=
  match pieces with
  | l :: ls => (c :: l) :: ls
  | [] => [[c]]
  end.

(** [s.split(/\r\n|\r|\n/)]: the separators are found left to right, CR LF
    being tried before a lone CR; the pieces between them are returned, so the
    result of splitting a string with [n] separators has [n + 1] pieces (the
    pattern never matches the empty string, hence [''.split] is [['']]). *)
Fixpoint split (s : jsstring) : list jsstring :=
  match s with
  | [] => [[]]
  | c :: s' =>
      if c =? CR then
        match s' with
        | d :: s'' => if d =? LF then [] :: split s'' else [] :: split s'
        | [] => [] :: split s'
        end
      else if c =? LF then [] :: split s'
      else consFirst c (split s')
  end.

(** [lines.pop()]: the array without its last element, and that element
    ([undefined], here [None], on an empty array). *)
Definition pop (lines : list jsstring) : list jsstring * option jsstring :=
  match lines with
  | [] => ([], None)
  | _ :: _ => (removelast lines, Some (last lines []))
  end.

(** [\d] without the [u] or [v] flag: the ASCII digits. *)
Definition isDigit (c : char) : bool := (48 <=? c) && (c <=? 57).

(** [/^\d+$/.test(value)]: without the [m] flag [$] is the end of the input. *)
Definition testDigits (value : jsstring) : bool :=
  match value with
  | [] => false
  | _ :: _ => forallb isDigit value
  end.

(** The mathematical integer denoted by a string of decimal digits. *)
Definition decimalValue (value : jsstring) : N :=
  fold_left (fun acc c => 10 * acc + (c - 48)) value 0.

(** The Number values [parseInt] can return on a string of digits. *)
Inductive Number :=
| Finite (n : N)
| Infinity.

(** The Number value of a non-negative integer: the nearest binary64 value,
    ties to even; integers below [2^53] are represented exactly. *)
Definition toNumber (n : N) : Number :=
  if n <? 2 ^ 53 then Finite n
  else
    let e := N.size n - 53 in
    let q := N.shiftr n e in
    let r := N.land n (N.ones e) in
    let half := N.shiftl 1 (e - 1) in
    let q' := if (half <? r) || ((half =? r) && N.odd q) then q + 1 else q in
    let v := N.shiftl q' e in
    if 1024 <? N.size v then Infinity else Finite v.

(** [Number.parseInt(value, 10)] on a string accepted by [testDigits]. (Past
    twenty significant digits the language lets an implementation round the
    digits first; the correctly rounded result is modelled.) *)
Definition parseInt10 (value : jsstring) : Number :=
  toNumber (decimalValue value).

End JS.

Import JS.

(** ** The event accumulator and the emitted records *)

(** The object built by [createEvent]; [retry: undefined] is [None]. *)
Record Event := mkEvent {
  type : jsstring;
  data : jsstring;
  retry : option Number
}.

(** The object passed to [controller.enqueue]. *)
Record ServerSentEvent := mkServerSentEvent {
  sse_type : jsstring;
  sse_data : jsstring;
  sse_lastEventId : jsstring;
  sse_retry : option Number
}.

Definition createEvent : Event :=
  {| type := []; data := []; retry := None |}.

(** [dispatchEvent(event, controller, lastEventId)]: the result is what the
    call enqueues on the controller, nothing or one record. *)
Definition dispatchEvent (event : Event) (lastEventId : jsstring)
  : list ServerSentEvent :=
  let data0 := data event in
  let data1 := if endsWith data0 [LF] then slice data0 0 (Some (-1)%Z)
               else data0 in
  match data1 with
  | [] => []
  | _ :: _ =>
      [ {| sse_type := match type event with
                       | [] => str "message"
                       | _ :: _ => type event
                       end;
           sse_data := data1;
           sse_lastEventId := lastEventId;
           sse_retry := retry event |} ]
  end.

(** The first lines of [processField]: the field name and the value of a
    line, the value without its single leading space. *)
Definition splitField (line : jsstring) : jsstring * jsstring :=
  let colonIndex := indexOf line colon in
  let field := if (colonIndex =? -1)%Z then line
               else slice line 0 (Some colonIndex) in
  let value := if (colonIndex =? -1)%Z then []
               else slice line (colonIndex + 1) None in
  let value := if startsWith value [space] then slice value 1 None
               else value in
  (field, value).

(** [processField(line, event, setLastEventId)]: the event is mutated in
    place and the callback assigns the stream's [lastEventId]; both are
    threaded through here. *)
Definition processField (line : jsstring) (event : Event)
  (lastEventId : jsstring) : Event * jsstring :=
  let '(field, value) := splitField line in
  if strictEquals field (str "event") then
    ({| type := value; data := data event; retry := retry event |},
     lastEventId)
  else if strictEquals field (str "data") then
    ({| type := type event; data := data event ++ value ++ [LF];
        retry := retry event |},
     lastEventId)
  else if strictEquals field (str "id") then
    if negb (includes value NUL) then (event, value)
    else (event, lastEventId)
  else if strictEquals field (str "retry") then
    if testDigits value then
      ({| type := type event; data := data event;
          retry := Some (parseInt10 value) |},
       lastEventId)
    else (event, lastEventId)
  else (event, lastEventId).

(** ** The transform stream *)

(** The variables captured by the [transform] and [flush] closures. *)
Record State := mkState {
  buffer : jsstring;
  isFirstChunk : bool;
  event : Event;
  lastEventId : jsstring
}.

(** The state set up by the constructor. *)
Definition initialState : State :=
  {| buffer := []; isFirstChunk := true; event := createEvent;
     lastEventId := [] |}.

(** The part of the state the line loop works on. *)
Definition Assembler : Type := Event * jsstring.

(** One iteration of [for (const line of lines)]: the new event and
    [lastEventId], and the records enqueued. *)
Definition processLine (a : Assembler) (line : jsstring)
  : Assembler * list ServerSentEvent :=
  let '(ev, id) := a in
  match line with
  | [] => ((createEvent, id), dispatchEvent ev id)
  | _ :: _ =>
      if startsWith line [colon] then (a, [])
      else (processField line ev id, [])
  end.

(** The whole [for] loop. *)
Fixpoint processLines (a : Assembler) (lines : list jsstring)
  : Assembler * list ServerSentEvent :=
  match lines with
  | [] => (a, [])
  | line :: rest =>
      let '(a1, out1) := processLine a line in
      let '(a2, out2) := processLines a1 rest in
      (a2, out1 ++ out2)
  end.

(** A chunk written to the stream: a string, or any other value (the tests
    write the bytes of a [Uint8Array]). *)
Inductive Chunk :=
| StringChunk (text : jsstring)
| OtherChunk (bytes : list N).

Inductive Error :=
| TypeError (message : string).

Definition expectsStringChunks : Error :=
  TypeError "ServerSentEventTransformStream expects string chunks. Pipe through TextDecoderStream first for byte streams.".

(** [transform] on a string chunk (everything after the [typeof] test). *)
Definition transformText (st : State) (chunk : jsstring)
  : State * list ServerSentEvent :=
  let text := if isFirstChunk st then replaceLeadingBOM chunk else chunk in
  let buffer1 := buffer st ++ text in
  let '(lines, popped) := pop (split buffer1) in
  let buffer2 := match popped with Some l => l | None => [] end in
  let '((ev, id), out) := processLines (event st, lastEventId st) lines in
  ({| buffer := buffer2; isFirstChunk := false; event := ev;
      lastEventId := id |}, out).

(** [transform(chunk, controller)]: the state after the call, the records
    enqueued by it and the exception thrown, if any. *)
Definition transform (st : State) (chunk : Chunk)
  : State * list ServerSentEvent * option Error :=
  match chunk with
  | OtherChunk _ => (st, [], Some expectsStringChunks)
  | StringChunk text =>
      let '(st', out) := transformText st text in (st', out, None)
  end.

(** [flush(controller)]: the records enqueued when the input ends. An empty
    string is falsy, so [buffer && ...] skips an empty buffer. *)
Definition flush (st : State) : list ServerSentEvent :=
  let '(ev, id) :=
    match buffer st with
    | [] => (event st, lastEventId st)
    | _ :: _ =>
        if negb (startsWith (buffer st) [colon])
        then processField (buffer st) (event st) (lastEventId st)
        else (event st, lastEventId st)
    end in
  dispatchEvent ev id.

(** Writing a sequence of chunks and closing the stream: the records
    enqueued on the controller, in order, and the error that ended the
    stream, if any. A throwing [transform] errors the stream: no later chunk
    is transformed and [flush] is not called. *)
Fixpoint runFrom (st : State) (chunks : list Chunk)
  : list ServerSentEvent * option Error :=
  match chunks with
  | [] => (flush st, None)
  | c :: rest =>
      match transform st c with
      | (_, out, Some e) => (out, Some e)
      | (st', out, None) =>
          let '(out', err) := runFrom st' rest in (out ++ out', err)
      end
  end.

(** Text fragments pushed one per [transform] call, then [flush]. *)
Fixpoint feedFrom (st : State) (fragments : list jsstring)
  : list ServerSentEvent :=
  match fragments with
  | [] => flush st
  | f :: rest =>
      let '(st', out) := transformText st f in out ++ feedFrom st' rest
  end.

Definition parseFragments (fragments : list jsstring) : list ServerSentEvent :=
  feedFrom initialState fragments.

(** The whole input pushed as one fragment. *)
Definition parseText (text : jsstring) : list ServerSentEvent :=
  parseFragments [text].

(** ** The adapter *)

Section Adapter.

(** [TextDecoderStream] is a platform object: it turns the byte chunks of a
    body into text chunks. It is a parameter of the adapter. *)
Variable TextDecoderStream : list (list N) -> list jsstring.

(** What [parseServerSentEvents] looks at in its argument: a falsy value, or
    an object whose [body] is falsy or a readable stream of byte chunks that
    is not locked (on any other truthy [body] the call to [pipeThrough]
    throws, a case left out here). *)
Inductive Response :=
| Falsy
| ResponseObject (body : option (list (list N))).

(** [parseServerSentEvents(response)]: the exception thrown by the call, or
    the records enqueued on the returned stream. *)
Definition parseServerSentEvents (response : Response)
  : Error + list ServerSentEvent :=
  match response with
  | Falsy => inl (TypeError "Expected a Response object")
  | ResponseObject None => inl (TypeError "Expected response to have a body")
  | ResponseObject (Some body) =>
      inr (fst (runFrom initialState
                  (map StringChunk (TextDecoderStream body))))
  end.

End Adapter.

(** ** Vocabulary of the properties *)

(** The field name and the value of a line, as [processField] computes
    them. *)
Definition fieldName (line : jsstring) : jsstring := fst (splitField line).
Definition fieldValue (line : jsstring) : jsstring := snd (splitField line).

Definition isField (name : string) (line : jsstring) : bool :=
  strictEquals (fieldName line) (str name).

(** The value of a line without its single leading space. *)
Definition stripLeadingSpace (value : jsstring) : jsstring :=
  match value with
  | c :: rest => if c =? space then rest else value
  | [] => []
  end.

(** The values of the [data] fields among the lines of an event, in the
    order of the lines. *)
Definition dataValues (lines : list jsstring) : list jsstring :=
  map fieldValue (filter (isField "data") lines).

(** Values joined by single newlines. *)
Fixpoint joinLF (values : list jsstring) : jsstring :=
  match values with
  | [] => []
  | v :: rest =>
      match rest with
      | [] => v
      | _ :: _ => v ++ LF :: joinLF rest
      end
  end.

(** The [data] of the records of a dispatch attempt: none when the joined
    data is empty. *)
Definition emittedData (joined : jsstring) : list jsstring :=
  match joined with
  | [] => []
  | _ :: _ => [joined]
  end.

(** An [id] field whose value has no NUL character. *)
Definition isValidId (line : jsstring) : bool :=
  isField "id" line && negb (includes (fieldValue line) NUL).

(** The value of the most recent valid [id] field among the lines, [default]
    when there is none. *)
Definition lastValidIdFrom (default : jsstring) (lines : list jsstring)
  : jsstring :=
  last (map fieldValue (filter isValidId lines)) default.

Definition lastValidId (lines : list jsstring) : jsstring :=
  lastValidIdFrom [] lines.

(** A [retry] field whose value is one or more ASCII digits. *)
Definition isValidRetry (line : jsstring) : bool :=
  isField "retry" line && testDigits (fieldValue line).

(** The parsed value of the most recent valid [retry] field among the lines
    of an event, absent when there is none. *)
Definition lastValidRetry (lines : list jsstring) : option Number :=
  last (map (fun l => Some (parseInt10 (fieldValue l)))
          (filter isValidRetry lines)) None.

(** The value of the last [event] field among the lines of an event, the
    empty string when there is none. *)
Definition lastEventField (lines : list jsstring) : jsstring :=
  last (map fieldValue (filter (isField "event") lines)) [].

(** The type a record gets from the lines of its event. *)
Definition emittedType (lines : list jsstring) : jsstring :=
  match lastEventField lines with
  | [] => str "message"
  | _ :: _ => lastEventField lines
  end.

(** The lines an event is made of: none of them is blank. *)
Definition eventLines (lines : list jsstring) : Prop :=
  Forall (fun l => l <> []) lines.

(** The in-progress event once the lines of an event have been applied to
    [ev], written from the fields the lines carry. *)
Definition eventAfter (ev : Event) (lines : list jsstring) : Event :=
  {| type := last (map fieldValue (filter (isField "event") lines)) (type ev);
     data := data ev
             ++ concat (map (fun v => v ++ [LF]) (dataValues lines));
     retry := last (map (fun l => Some (parseInt10 (fieldValue l)))
                      (filter isValidRetry lines)) (retry ev) |}.

(** What a dispatch attempt is to enqueue for an event made of [lines], the
    connection's last event id being [id]. *)
Definition expectedRecords (lines : list jsstring) (id : jsstring)
  : list ServerSentEvent :=
  match joinLF (dataValues lines) with
  | [] => []
  | _ :: _ =>
      [ {| sse_type := emittedType lines;
           sse_data := joinLF (dataValues lines);
           sse_lastEventId := id;
           sse_retry := lastValidRetry lines |} ]
  end.

(** The unterminated remainder held in the buffer at the end of the input,
    as a line, when it is not empty. *)
Definition pendingLine (remainder : jsstring) : list jsstring :=
  match remainder with
  | [] => []
  | _ :: _ => [remainder]
  end.

(** The complete lines of a text and its unterminated remainder. *)
Definition linesOf (text : jsstring) : list jsstring :=
  removelast (split text).

Definition restOf (text : jsstring) : jsstring :=
  last (split text) [].

(** A string without line terminators. *)
Definition noTerminator (s : jsstring) : Prop :=
  Forall (fun c => c <> CR /\ c <> LF) s.

(** The state of the stream once [text] (after the byte-order mark) has been
    pushed, in any number of fragments that keep CR LF pairs whole. *)
Definition stateAfter (text : jsstring) : State :=
  let '(ev, id) := fst (processLines (createEvent, []) (linesOf text)) in
  {| buffer := restOf text; isFirstChunk := false; event := ev;
     lastEventId := id |}.

Definition recordsAfter (text : jsstring) : list ServerSentEvent :=
  snd (processLines (createEvent, []) (linesOf text)).

(** [fragment] comes right after [before] and the boundary separates a CR
    from the LF that follows it. *)
Definition splitsCRLF (before fragment : jsstring) : bool :=
  endsWith before [CR] && startsWith fragment [LF].

(** No boundary of the fragments pushed after [before] separates a CR from
    the LF that follows it. *)
Fixpoint noSplitCRLF (before : jsstring) (fragments : list jsstring) : bool :=
  match fragments with
  | [] => true
  | f :: rest => negb (splitsCRLF before f) && noSplitCRLF (before ++ f) rest
  end.

(** The first fragment holds the first character of the text: it is not
    empty, unless what follows does not start with a byte-order mark. *)
Definition startInFirstFragment (fragments : list jsstring) : bool :=
  match fragments with
  | [] :: rest => negb (startsWith (concat rest) [BOM])
  | _ => true
  end.

(** Fragments pushed one per [transform] call, without the final [flush]. *)
Fixpoint transformAll (st : State) (fragments : list jsstring)
  : State * list ServerSentEvent :=
  match fragments with
  | [] => (st, [])
  | f :: rest =>
      let '(st1, out1) := transformText st f in
      let '(st2, out2) := transformAll st1 rest in
      (st2, out1 ++ out2)
  end.

(** ** Vocabulary of the further properties *)

(** The text with every line terminator (CR LF, CR or LF) written as one
    LF. *)
Fixpoint normalizeNewlines (s : jsstring) : jsstring :=
  match s with
  | [] => []
  | c :: s' =>
      if c =? CR then
        match s' with
        | d :: s'' =>
            if d =? LF then LF :: normalizeNewlines s''
            else LF :: normalizeNewlines s'
        | [] => LF :: normalizeNewlines s'
        end
      else c :: normalizeNewlines s'
  end.

(** A line the assembler has no use for: a comment, or a non-blank line
    whose field is none of [event], [data], [id] and [retry]. *)
Definition isInertLine (line : jsstring) : bool :=
  match line with
  | [] => false
  | _ :: _ =>
      startsWith line [colon]
      || negb (isField "event" line || isField "data" line
               || isField "id" line || isField "retry" line)
  end.

Definition isBlankLine (line : jsstring) : bool :=
  match line with
  | [] => true
  | _ :: _ => false
  end.

(** A record that can be written on lines of its own: its type and its
    last event id hold no line terminator, the id no NUL character either,
    and its data no CR. *)
Definition lineSafeRecord (r : ServerSentEvent) : Prop :=
  noTerminator (sse_type r)
  /\ noTerminator (sse_lastEventId r)
  /\ ~ In NUL (sse_lastEventId r)
  /\ ~ In CR (sse_data r).

(** The same for the event in progress and the last event id. *)
Definition lineSafeAssembler (a : Assembler) : Prop :=
  noTerminator (type (fst a))
  /\ noTerminator (snd a)
  /\ ~ In NUL (snd a)
  /\ ~ In CR (data (fst a)).

(** A state whose buffer holds no line terminator and whose event in
    progress and last event id are as [lineSafeAssembler] says. *)
Definition lineSafeState (st : State) : Prop :=
  noTerminator (buffer st)
  /\ lineSafeAssembler (event st, lastEventId st).

(** The records of a sequence of lines, event by event: the lines met since
    the last blank line are gathered in [current]; a blank line closes the
    event, which gives the records [expectedRecords] says, and only the last
    event id passes on to the next event. *)
Fixpoint recordsOfLines (id : jsstring) (current lines : list jsstring)
  : list ServerSentEvent :=
  match lines with
  | [] => []
  | l :: rest =>
      if isBlankLine l then
        expectedRecords current (lastValidIdFrom id current)
        ++ recordsOfLines (lastValidIdFrom id current) [] rest
      else recordsOfLines id (current ++ [l]) rest
  end.

(** The text that a sequence of fragments amounts to for the stream: at
    each fragment boundary the terminators of what came before are settled,
    a CR that ends a fragment being a terminator of its own. *)
Definition joinFragments (first : jsstring) (rest : list jsstring)
  : jsstring :=
  fold_left (fun acc f => normalizeNewlines acc ++ f) rest first.

(** ** Vocabulary of the retry value *)

(** The integer written by the most recent valid [retry] field among the
    lines of an event, absent when there is none. *)
Definition lastValidRetryInteger (lines : list jsstring) : option N :=
  last (map (fun l => Some (decimalValue (fieldValue l)))
          (filter isValidRetry lines)) None.

(** [v] is the multiple of [2^e] nearest to [n], the even multiple when [n]
    is half way between two of them. *)
Definition roundedTo (n e v : N) : Prop :=
  exists q,
    v = q * 2 ^ e
    /\ 2 * v <= 2 * n + 2 ^ e
    /\ 2 * n <= 2 * v + 2 ^ e
    /\ ((2 * v = 2 * n + 2 ^ e \/ 2 * n = 2 * v + 2 ^ e) -> N.even q = true).

(** [x] is the Number value of the integer [n]: [n] itself below [2^53];
    from there on a binary64 value keeps the 53 leading bits, so [n] is
    rounded to the nearest multiple of [2^(size - 53)], ties to even, and
    the result is [Infinity] when it reaches [2^1024]. *)
Definition numberOf (n : N) (x : Number) : Prop :=
  if n <? 2 ^ 53 then x = Finite n
  else exists v,
      roundedTo n (N.size n - 53) v
      /\ x = if v <? 2 ^ 1024 then Finite v else Infinity.

(** ** Checks against the repository's tests *)

Example test_basic_message :
  parseText (str "data: hello" ++ [LF; LF])
  = [mkServerSentEvent (str "message") (str "hello") [] None].
Proof. reflexivity. Qed.

Example test_all_fields_combined :
  parseText (str "event: update" ++ [LF] ++ str "id: 42" ++ [LF]
             ++ str "retry: 3000" ++ [LF] ++ str "data: test" ++ [LF; LF])
  = [mkServerSentEvent (str "update") (str "test") (str "42")
       (Some (Finite 3000))].
Proof. reflexivity. Qed.

Example test_mixed_line_endings :
  map sse_data
    (parseText (str "data: first" ++ [CR; LF; CR; LF] ++ str "data: second"
                ++ [LF; LF] ++ str "data: third" ++ [CR; CR]))
  = [str "first"; str "second"; str "third"].
Proof. reflexivity. Qed.

Example test_chunked_data_across_multiple_reads :
  map sse_data
    (parseFragments [str "data: part"; str " 1" ++ [LF] ++ str "data: par";
                     str "t 2" ++ [LF; LF]])
  = [str "part 1" ++ [LF] ++ str "part 2"].
Proof. reflexivity. Qed.

(** ** Strings *)

Section StringFacts.

Lemma strictEquals_spec (s t : jsstring) : strictEquals s t = true <-> s = t.
Proof.
  revert t; induction s as [|a s IH]; intros [|b t]; simpl;
    try (split; [discriminate | congruence]); try tauto.
  rewrite andb_true_iff, N.eqb_eq, IH.
  split; [intros [-> ->]; reflexivity | intros H; inversion H; auto].
Qed.

Lemma strictEquals_refl (s : jsstring) : strictEquals s s = true.
Proof. apply strictEquals_spec; reflexivity. Qed.

Lemma strictEquals_neq (s t : jsstring) : s <> t -> strictEquals s t = false.
Proof.
  intros H. destruct (strictEquals s t) eqn:E; [|reflexivity].
  apply strictEquals_spec in E. contradiction.
Qed.

Lemma indexOf_absent (s : jsstring) (c : char) :
  ~ In c s -> indexOf s c = (-1)%Z.
Proof.
  induction s as [|x s IH]; simpl; intros H; [reflexivity|].
  destruct (N.eqb_spec x c) as [->|_]; [tauto|].
  rewrite IH by tauto. reflexivity.
Qed.

Lemma indexOf_nonneg_or_absent (s : jsstring) (c : char) :
  (indexOf s c = -1 \/ 0 <= indexOf s c)%Z.
Proof.
  induction s as [|x s IH]; simpl; [left; reflexivity|].
  destruct (x =? c); [right; lia|].
  destruct (Z.eqb_spec (indexOf s c) (-1)); [left; reflexivity | right; lia].
Qed.

Lemma indexOf_first (f rest : jsstring) (c : char) :
  ~ In c f -> indexOf (f ++ c :: rest) c = Z.of_nat (List.length f).
Proof.
  induction f as [|x f IH]; simpl; intros H.
  - rewrite N.eqb_refl. reflexivity.
  - destruct (N.eqb_spec x c) as [->|_]; [tauto|].
    rewrite IH by tauto.
    destruct (Z.eqb_spec (Z.of_nat (List.length f)) (-1)); lia.
Qed.

Lemma indexOf_present (s : jsstring) (c : char) :
  In c s -> indexOf s c <> (-1)%Z.
Proof.
  intros H. apply in_split in H. destruct H as (f & rest & ->).
  revert rest. induction f as [|x f IH]; intros rest; simpl.
  - rewrite N.eqb_refl. discriminate.
  - destruct (x =? c); [discriminate|].
    specialize (IH rest).
    destruct (Z.eqb_spec (indexOf (f ++ c :: rest) c) (-1)); [contradiction|].
    destruct (indexOf_nonneg_or_absent (f ++ c :: rest) c); lia.
Qed.

Lemma slice_to (s : jsstring) (n : nat) :
  (n <= List.length s)%nat -> slice s 0 (Some (Z.of_nat n)) = firstn n s.
Proof.
  intros H. unfold slice, relativeIndex. simpl.
  destruct (Z.ltb_spec (Z.of_nat n) 0); [lia|].
  rewrite Z.min_l by lia.
  rewrite Z.min_l by lia.
  rewrite Z.sub_0_r, Nat2Z.id. reflexivity.
Qed.

Lemma slice_from (s : jsstring) (n : nat) :
  (n <= List.length s)%nat -> slice s (Z.of_nat n) None = skipn n s.
Proof.
  intros H. unfold slice, relativeIndex.
  destruct (Z.ltb_spec (Z.of_nat n) 0); [lia|].
  rewrite Z.min_l by lia. rewrite Nat2Z.id.
  apply firstn_all2. rewrite length_skipn. lia.
Qed.

Lemma slice_drop_last (s : jsstring) :
  slice s 0 (Some (-1)%Z) = removelast s.
Proof.
  unfold slice, relativeIndex. simpl.
  rewrite Z.min_l by lia. rewrite Z.sub_0_r.
  rewrite removelast_firstn_len. f_equal. lia.
Qed.

Lemma endsWith_snoc (s : jsstring) (c d : char) :
  endsWith (s ++ [c]) [d] = (c =? d).
Proof.
  unfold endsWith. rewrite rev_app_distr. simpl.
  destruct (rev s); apply andb_true_r.
Qed.

Lemma includes_spec (s : jsstring) (c : char) :
  includes s c = true <-> In c s.
Proof.
  unfold includes. rewrite existsb_exists. split.
  - intros (x & Hx & E). apply N.eqb_eq in E. subst. exact Hx.
  - intros H. exists c. split; [exact H | apply N.eqb_refl].
Qed.

Lemma testDigits_spec (value : jsstring) :
  testDigits value = true
  <-> value <> [] /\ Forall (fun c => 48 <= c <= 57) value.
Proof.
  unfold testDigits. destruct value as [|c r].
  - split; [discriminate | intros [H _]; congruence].
  - rewrite forallb_forall, Forall_forall. split.
    + intros H. split; [discriminate|]. intros x Hx.
      specialize (H x Hx). unfold isDigit in H.
      apply andb_true_iff in H. rewrite !N.leb_le in H. exact H.
    + intros [_ H] x Hx. specialize (H x Hx). unfold isDigit.
      apply andb_true_iff. rewrite !N.leb_le. exact H.
Qed.

End StringFacts.

(** ** Field lines *)

Section Fields.

Lemma splitField_no_colon (line : jsstring) :
  ~ In colon line -> splitField line = (line, []).
Proof.
  intros H. unfold splitField. rewrite indexOf_absent by assumption.
  reflexivity.
Qed.

Lemma stripLeadingSpace_slice (value : jsstring) :
  (if startsWith value [space] then slice value 1 None else value)
  = stripLeadingSpace value.
Proof.
  destruct value as [|c r]; [reflexivity|].
  change (startsWith (c :: r) [space]) with ((c =? space) && true).
  rewrite andb_true_r. unfold stripLeadingSpace.
  destruct (c =? space); [|reflexivity].
  change 1%Z with (Z.of_nat 1). rewrite slice_from by (simpl; lia).
  reflexivity.
Qed.

Lemma splitField_colon (f rest : jsstring) :
  ~ In colon f -> splitField (f ++ colon :: rest) = (f, stripLeadingSpace rest).
Proof.
  intros H. unfold splitField. rewrite indexOf_first by assumption.
  destruct (Z.eqb_spec (Z.of_nat (length f)) (-1)); [lia|].
  rewrite slice_to by (rewrite length_app; simpl; lia).
  replace (Z.of_nat (length f) + 1)%Z with (Z.of_nat (S (length f))) by lia.
  rewrite slice_from by (rewrite length_app; simpl; lia).
  rewrite firstn_app, firstn_all, Nat.sub_diag, app_nil_r.
  replace (skipn (S (length f)) (f ++ colon :: rest)) with rest.
  - rewrite stripLeadingSpace_slice. reflexivity.
  - rewrite skipn_app, skipn_all2 by lia.
    replace (S (length f) - length f)%nat with 1%nat by lia. reflexivity.
Qed.

Lemma startsWith_colon (line : jsstring) :
  startsWith line [colon] = true -> exists rest, line = colon :: rest.
Proof.
  destruct line as [|c rest]; simpl; [discriminate|].
  rewrite andb_true_r. intros H. apply N.eqb_eq in H. subst. eauto.
Qed.

Lemma fieldName_comment (rest : jsstring) : fieldName (colon :: rest) = [].
Proof.
  unfold fieldName.
  change (colon :: rest) with ([] ++ colon :: rest).
  rewrite splitField_colon by (simpl; tauto). reflexivity.
Qed.

Lemma isField_comment (name : string) (rest : jsstring) :
  str name <> [] -> isField name (colon :: rest) = false.
Proof.
  intros H. unfold isField. rewrite fieldName_comment.
  apply strictEquals_neq. congruence.
Qed.

Lemma isField_exclusive (n1 n2 : string) (line : jsstring) :
  str n1 <> str n2 -> isField n1 line = true -> isField n2 line = false.
Proof.
  unfold isField. intros Hne H. apply strictEquals_spec in H.
  apply strictEquals_neq. congruence.
Qed.

(** The [switch] of [processField], by the field of the line. *)
Lemma processField_cases (line : jsstring) (ev : Event) (id : jsstring) :
  processField line ev id =
  if isField "event" line then
    ({| type := fieldValue line; data := data ev; retry := retry ev |}, id)
  else if isField "data" line then
    ({| type := type ev; data := data ev ++ fieldValue line ++ [LF];
        retry := retry ev |}, id)
  else if isField "id" line then
    (ev, if isValidId line then fieldValue line else id)
  else if isField "retry" line then
    (if isValidRetry line
     then {| type := type ev; data := data ev;
             retry := Some (parseInt10 (fieldValue line)) |}
     else ev, id)
  else (ev, id).
Proof.
  unfold processField, isValidId, isValidRetry, isField, fieldName, fieldValue.
  destruct (splitField line) as [field value]. simpl.
  destruct (strictEquals field (str "event")); [reflexivity|].
  destruct (strictEquals field (str "data")); [reflexivity|].
  destruct (strictEquals field (str "id")).
  - simpl. destruct (includes value NUL); reflexivity.
  - destruct (strictEquals field (str "retry")); [|reflexivity].
    simpl. destruct (testDigits value); reflexivity.
Qed.

Lemma last_cons_default {A : Type} (x d : A) (l : list A) :
  last (x :: l) d = last l x.
Proof.
  revert x d. induction l as [|y l IH]; intros x d; [reflexivity|].
  change (last (x :: y :: l) d) with (last (y :: l) d).
  rewrite IH. symmetry. apply IH.
Qed.

Lemma processLines_app (a : Assembler) (xs ys : list jsstring) :
  processLines a (xs ++ ys) =
  let '(a1, out1) := processLines a xs in
  let '(a2, out2) := processLines a1 ys in
  (a2, out1 ++ out2).
Proof.
  revert a. induction xs as [|x xs IH]; intros a; simpl.
  - destruct (processLines a ys). reflexivity.
  - destruct (processLine a x) as [a1 o1]. rewrite IH.
    destruct (processLines a1 xs) as [a2 o2].
    destruct (processLines a2 ys) as [a3 o3].
    rewrite app_assoc. reflexivity.
Qed.

End Fields.

(** ** The lines of one event *)

Lemma str_distinct (n1 n2 : string) :
  strictEquals (str n1) (str n2) = false -> str n1 <> str n2.
Proof.
  intros H E. rewrite E, strictEquals_refl in H. discriminate.
Qed.

Ltac other_field H name :=
  let F := fresh "F" in
  match type of H with
  | isField ?n ?l = true =>
      assert (F : isField name l = false)
        by (apply (isField_exclusive n name l);
            [apply str_distinct; reflexivity | exact H]);
      try rewrite F
  end.

Section Assembly.

Lemma processLine_nonblank (line : jsstring) (ev : Event) (id : jsstring) :
  line <> [] ->
  processLine (ev, id) line =
  (if startsWith line [colon] then (ev, id) else processField line ev id, []).
Proof.
  destruct line as [|c r]; [congruence|]. intros _.
  unfold processLine. destruct (startsWith (c :: r) [colon]); reflexivity.
Qed.

Lemma eventAfter_nil (ev : Event) : eventAfter ev [] = ev.
Proof.
  destruct ev. unfold eventAfter. simpl. rewrite app_nil_r. reflexivity.
Qed.

(** One line of an event, seen from the fields of the lines. *)
Lemma line_step (l : jsstring) (ev : Event) (id : jsstring)
  (lines : list jsstring) :
  let '(ev1, id1) := if startsWith l [colon] then (ev, id)
                     else processField l ev id in
  eventAfter ev1 lines = eventAfter ev (l :: lines)
  /\ lastValidIdFrom id1 lines = lastValidIdFrom id (l :: lines).
Proof.
  unfold eventAfter, lastValidIdFrom, dataValues, isValidId, isValidRetry.
  cbn [filter].
  destruct (startsWith l [colon]) eqn:Hc.
  - apply startsWith_colon in Hc. destruct Hc as [rest ->].
    rewrite !isField_comment by discriminate. simpl. split; reflexivity.
  - rewrite processField_cases.
    unfold isValidId, isValidRetry.
    destruct (isField "event" l) eqn:E1.
    { other_field E1 "data"%string. other_field E1 "id"%string.
      other_field E1 "retry"%string. cbn [andb map]. simpl type. simpl data.
      simpl retry. rewrite last_cons_default. split; reflexivity. }
    destruct (isField "data" l) eqn:E2.
    { other_field E2 "id"%string. other_field E2 "retry"%string.
      cbn [andb map concat]. simpl type. simpl data. simpl retry.
      rewrite <- !app_assoc. split; reflexivity. }
    destruct (isField "id" l) eqn:E3.
    { other_field E3 "retry"%string. cbn [andb].
      destruct (negb (includes (fieldValue l) NUL)).
      - cbn [map]. rewrite last_cons_default. split; reflexivity.
      - split; reflexivity. }
    destruct (isField "retry" l) eqn:E4.
    { cbn [andb]. destruct (testDigits (fieldValue l)).
      - cbn [map]. simpl type. simpl data. simpl retry.
        rewrite last_cons_default. split; reflexivity.
      - split; reflexivity. }
    cbn [andb]. split; reflexivity.
Qed.

(** The lines of an event enqueue nothing and leave the event and the last
    event id that the fields of the lines determine. *)
Lemma processLines_event (lines : list jsstring) :
  forall ev id,
    eventLines lines ->
    processLines (ev, id) lines
    = ((eventAfter ev lines, lastValidIdFrom id lines), []).
Proof.
  induction lines as [|l lines IH]; intros ev id H.
  - simpl. rewrite eventAfter_nil. reflexivity.
  - inversion H as [|? ? Hl Hrest]; subst.
    cbn [processLines]. rewrite processLine_nonblank by assumption.
    pose proof (line_step l ev id lines) as Hstep.
    destruct (if startsWith l [colon] then (ev, id)
              else processField l ev id) as [ev1 id1].
    destruct Hstep as [He Hi].
    rewrite IH by assumption. rewrite He, Hi. reflexivity.
Qed.

Lemma concat_lines_join (values : list jsstring) :
  values <> [] ->
  concat (map (fun v => v ++ [LF]) values) = joinLF values ++ [LF].
Proof.
  induction values as [|v rest IH]; [congruence|]. intros _.
  destruct rest as [|w rest].
  - simpl. rewrite app_nil_r. reflexivity.
  - change (concat (map (fun v => v ++ [LF]) (v :: w :: rest)))
      with ((v ++ [LF]) ++ concat (map (fun v => v ++ [LF]) (w :: rest))).
    rewrite IH by discriminate.
    change (joinLF (v :: w :: rest)) with (v ++ LF :: joinLF (w :: rest)).
    rewrite <- !app_assoc. reflexivity.
Qed.

(** The trimming of [dispatchEvent] takes the data of an event back to its
    values joined by newlines. *)
Lemma trimmed_data (values : list jsstring) :
  let d := concat (map (fun v => v ++ [LF]) values) in
  (if endsWith d [LF] then slice d 0 (Some (-1)%Z) else d) = joinLF values.
Proof.
  destruct values as [|v rest]; [reflexivity|].
  cbv zeta. rewrite concat_lines_join by discriminate.
  rewrite endsWith_snoc, slice_drop_last, removelast_last.
  reflexivity.
Qed.

Lemma dispatchEvent_eventAfter (lines : list jsstring) (id : jsstring) :
  dispatchEvent (eventAfter createEvent lines) id = expectedRecords lines id.
Proof.
  unfold dispatchEvent, expectedRecords.
  change (data (eventAfter createEvent lines))
    with (concat (map (fun v => v ++ [LF]) (dataValues lines))).
  rewrite trimmed_data.
  destruct (joinLF (dataValues lines)); reflexivity.
Qed.

(** An event followed by a blank line. *)
Lemma processLines_event_blank (lines : list jsstring) (id : jsstring) :
  eventLines lines ->
  processLines (createEvent, id) (lines ++ [[]])
  = ((createEvent, lastValidIdFrom id lines),
     expectedRecords lines (lastValidIdFrom id lines)).
Proof.
  intros H. rewrite processLines_app, processLines_event by assumption.
  cbn [processLines processLine]. rewrite dispatchEvent_eventAfter.
  rewrite app_nil_r. reflexivity.
Qed.

End Assembly.

(** ** Dispatch attempts *)

Section Dispatch.

(** [flush] does what the line loop does on the remainder followed by a
    blank line. *)
Lemma flush_as_lines (st : State) :
  flush st
  = snd (processLines (event st, lastEventId st)
           (pendingLine (buffer st) ++ [[]])).
Proof.
  unfold flush. destruct (buffer st) as [|c r] eqn:Hb.
  - simpl. rewrite app_nil_r. reflexivity.
  - cbn [pendingLine app processLines processLine].
    destruct (startsWith (c :: r) [colon]); cbn [negb].
    + simpl. rewrite app_nil_r. reflexivity.
    + destruct (processField (c :: r) (event st) (lastEventId st)) as [ev id].
      simpl. rewrite app_nil_r. reflexivity.
Qed.

Lemma eventLines_pending (lines : list jsstring) (remainder : jsstring) :
  eventLines lines -> eventLines (lines ++ pendingLine remainder).
Proof.
  intros H. apply Forall_app. split; [assumption|].
  destruct remainder; simpl; constructor; [discriminate | constructor].
Qed.

(** The final dispatch attempt, for an event begun by [lines]. *)
Lemma flush_event (lines : list jsstring) (id : jsstring) (st : State) :
  eventLines lines ->
  (event st, lastEventId st) = fst (processLines (createEvent, id) lines) ->
  flush st
  = expectedRecords (lines ++ pendingLine (buffer st))
      (lastValidIdFrom id (lines ++ pendingLine (buffer st))).
Proof.
  intros H Hst. rewrite flush_as_lines, Hst.
  pose proof (processLines_event_blank (lines ++ pendingLine (buffer st)) id
                (eventLines_pending _ _ H)) as E.
  rewrite <- app_assoc, processLines_app in E.
  destruct (processLines (createEvent, id) lines) as [a o] eqn:E1.
  assert (o = []) as ->
    by (rewrite processLines_event in E1 by assumption; congruence).
  simpl fst.
  destruct (processLines a (pendingLine (buffer st) ++ [[]])) as [a2 o2].
  simpl in E. simpl. congruence.
Qed.

Lemma expectedRecords_field {A : Type} (f : ServerSentEvent -> A)
  (lines : list jsstring) (id : jsstring) (r : ServerSentEvent) :
  In r (expectedRecords lines id) ->
  f r = f {| sse_type := emittedType lines;
             sse_data := joinLF (dataValues lines);
             sse_lastEventId := id;
             sse_retry := lastValidRetry lines |}.
Proof.
  unfold expectedRecords. destruct (joinLF (dataValues lines)); simpl.
  - tauto.
  - intros [<-|[]]. reflexivity.
Qed.

Lemma expectedRecords_data (lines : list jsstring) (id : jsstring) :
  map sse_data (expectedRecords lines id)
  = emittedData (joinLF (dataValues lines)).
Proof.
  unfold expectedRecords, emittedData.
  destruct (joinLF (dataValues lines)); reflexivity.
Qed.

(** The last event id after any lines, blank ones included. *)
Lemma processLines_lastEventId (lines : list jsstring) :
  forall ev id,
    snd (fst (processLines (ev, id) lines)) = lastValidIdFrom id lines.
Proof.
  induction lines as [|l lines IH]; intros ev id; [reflexivity|].
  cbn [processLines].
  destruct l as [|c r].
  - cbn [processLine].
    specialize (IH createEvent id).
    destruct (processLines (createEvent, id) lines) as [a o].
    simpl in *. rewrite IH. reflexivity.
  - rewrite processLine_nonblank by discriminate.
    pose proof (line_step (c :: r) ev id lines) as Hstep.
    destruct (if startsWith (c :: r) [colon] then (ev, id)
              else processField (c :: r) ev id) as [ev1 id1].
    destruct Hstep as [_ Hi]. specialize (IH ev1 id1).
    destruct (processLines (ev1, id1) lines) as [a o].
    simpl in *. rewrite IH. exact Hi.
Qed.

Lemma dispatchEvent_lastEventId (ev : Event) (id : jsstring)
  (r : ServerSentEvent) :
  In r (dispatchEvent ev id) -> sse_lastEventId r = id.
Proof.
  unfold dispatchEvent.
  destruct (if endsWith (data ev) [LF]
            then slice (data ev) 0 (Some (-1)%Z) else data ev); simpl.
  - tauto.
  - intros [<-|[]]. reflexivity.
Qed.

Lemma blank_line_lastEventId (a : Assembler) (r : ServerSentEvent) :
  In r (snd (processLine a [])) -> sse_lastEventId r = snd a.
Proof.
  destruct a as [ev id]. simpl. apply dispatchEvent_lastEventId.
Qed.

Lemma last_app_default {A : Type} (l1 l2 : list A) (d : A) :
  last (l1 ++ l2) d = last l2 (last l1 d).
Proof.
  revert d. induction l1 as [|x l1 IH]; intros d; [reflexivity|].
  rewrite <- app_comm_cons, !last_cons_default. apply IH.
Qed.

Lemma last_map_Some {A B : Type} (g : A -> B) (ys : list A) (b : B) :
  exists m, last (map (fun l => Some (g l)) ys) (Some b) = Some m.
Proof.
  revert b. induction ys as [|y ys IH]; intros b; [simpl; eauto|].
  cbn [map]. rewrite last_cons_default. apply IH.
Qed.

Lemma lastValidIdFrom_app (id : jsstring) (xs ys : list jsstring) :
  lastValidIdFrom id (xs ++ ys)
  = lastValidIdFrom (lastValidIdFrom id xs) ys.
Proof.
  unfold lastValidIdFrom. rewrite filter_app, map_app.
  apply last_app_default.
Qed.

Lemma flush_lastEventId (st : State) (r : ServerSentEvent) :
  In r (flush st) ->
  sse_lastEventId r
  = lastValidIdFrom (lastEventId st) (pendingLine (buffer st)).
Proof.
  rewrite flush_as_lines, processLines_app.
  rewrite processLines_event by (apply (eventLines_pending []); constructor).
  cbn [processLines processLine snd app].
  rewrite app_nil_r. apply dispatchEvent_lastEventId.
Qed.

End Dispatch.

(** ** Properties of the emitted records *)

(** C2. At every dispatch attempt, the one of a blank line and the one of
    [flush], for an event made of [lines]: nothing is emitted when the values
    of its [data] fields, joined by single newlines in the order of the lines,
    make the empty string; otherwise one record is emitted and its data is
    that joined string, the newline appended after the last value being the
    only one removed. *)
Theorem dispatch_data_joined (lines : list jsstring) (id : jsstring) :
  eventLines lines ->
  map sse_data (snd (processLines (createEvent, id) (lines ++ [[]])))
  = emittedData (joinLF (dataValues lines))
  /\ (forall st,
         (event st, lastEventId st)
         = fst (processLines (createEvent, id) lines) ->
         map sse_data (flush st)
         = emittedData
             (joinLF (dataValues (lines ++ pendingLine (buffer st)))))
  /\ (forall ev id',
         map sse_data (dispatchEvent ev id')
         = emittedData (if endsWith (data ev) [LF]
                        then removelast (data ev) else data ev)).
Proof.
  intros H. split; [|split].
  - rewrite processLines_event_blank by assumption.
    apply expectedRecords_data.
  - intros st Hst. rewrite (flush_event lines id st H Hst).
    apply expectedRecords_data.
  - intros ev id'. unfold dispatchEvent. rewrite slice_drop_last.
    destruct (endsWith (data ev) [LF]).
    + destruct (removelast (data ev)); reflexivity.
    + destruct (data ev); reflexivity.
Qed.

Lemma dispatch_data_joined_witness :
  eventLines [str "data: a"; str "data"; str "data:"]
  /\ map sse_data
       (snd (processLines (createEvent, [])
               ([str "data: a"; str "data"; str "data:"] ++ [[]])))
     = [str "a" ++ [LF; LF]]
  /\ map sse_data
       (flush {| buffer := str "data:b"; isFirstChunk := false;
                 event := {| type := []; data := str "a" ++ [LF];
                             retry := None |};
                 lastEventId := [] |})
     = [str "a" ++ [LF] ++ str "b"].
Proof.
  assert (H : eventLines [str "data: a"; str "data"; str "data:"])
    by (repeat constructor; discriminate).
  assert (H1 : eventLines [str "data: a"])
    by (repeat constructor; discriminate).
  split; [exact H|]. split.
  - exact (proj1 (dispatch_data_joined _ [] H)).
  - exact (proj1 (proj2 (dispatch_data_joined _ [] H1))
             {| buffer := str "data:b"; isFirstChunk := false;
                event := {| type := []; data := str "a" ++ [LF];
                            retry := None |};
                lastEventId := [] |} eq_refl).
Defined.

(** C3. The [lastEventId] of every record emitted at a dispatch point is the
    value of the most recent valid [id] field among all the lines processed up
    to that point, the empty string when there is none; an [id] field with an
    empty value sets the connection's last event id to the empty string; one
    whose value has a NUL character leaves it as it is; a valid one sets it at
    once, also in an event that is discarded. *)
Theorem lastEventId_most_recent_valid_id :
  (forall before r,
      In r (snd (processLine (fst (processLines (createEvent, []) before)) []))
      -> sse_lastEventId r = lastValidId before)
  /\ (forall before st r,
         (event st, lastEventId st)
         = fst (processLines (createEvent, []) before) ->
         In r (flush st) ->
         sse_lastEventId r
         = lastValidId (before ++ pendingLine (buffer st)))
  /\ (forall line ev id,
         isField "id" line = true -> fieldValue line = [] ->
         processField line ev id = (ev, []))
  /\ (forall line ev id,
         isField "id" line = true -> includes (fieldValue line) NUL = true ->
         processField line ev id = (ev, id))
  /\ (forall line ev id,
         isValidId line = true ->
         processField line ev id = (ev, fieldValue line)
         /\ processLines (createEvent, id) [line; []]
            = ((createEvent, fieldValue line), []))
  /\ (forall line,
         isValidId line = true
         <-> isField "id" line = true /\ ~ In NUL (fieldValue line)).
Proof.
  split; [|split; [|split; [|split; [|split]]]].
  - intros before r Hr. apply blank_line_lastEventId in Hr.
    rewrite Hr. apply processLines_lastEventId.
  - intros before st r Hst Hr. apply flush_lastEventId in Hr.
    rewrite Hr. unfold lastValidId. rewrite lastValidIdFrom_app.
    f_equal.
    change (lastEventId st) with (snd (event st, lastEventId st)).
    rewrite Hst. apply processLines_lastEventId.
  - intros line ev id Hf Hv. rewrite processField_cases.
    other_field Hf "event"%string. other_field Hf "data"%string.
    rewrite Hf. unfold isValidId. rewrite Hf, Hv. reflexivity.
  - intros line ev id Hf Hv. rewrite processField_cases.
    other_field Hf "event"%string. other_field Hf "data"%string.
    rewrite Hf. unfold isValidId. rewrite Hf, Hv. reflexivity.
  - intros line ev id Hv.
    assert (Hf : isField "id" line = true)
      by (unfold isValidId in Hv; apply andb_true_iff in Hv; tauto).
    other_field Hf "event"%string. other_field Hf "data"%string.
    other_field Hf "retry"%string.
    assert (Hline : line <> []) by (intros ->; discriminate).
    split.
    + rewrite processField_cases, F, F0, Hf, Hv. reflexivity.
    + change [line; []] with ([line] ++ [[]]).
      rewrite processLines_event_blank
        by (constructor; [assumption | constructor]).
      unfold expectedRecords, lastValidIdFrom, dataValues. cbn [filter].
      rewrite F0, Hv. reflexivity.
  - intros line. unfold isValidId.
    rewrite andb_true_iff, negb_true_iff, <- includes_spec.
    destruct (includes (fieldValue line) NUL); intuition congruence.
Qed.

Lemma lastEventId_most_recent_valid_id_witness :
  In (mkServerSentEvent (str "message") (str "test") (str "123") None)
    (snd (processLine
            (fst (processLines (createEvent, [])
                    [str "id: 123"; []; str "data: test"])) []))
  /\ sse_lastEventId
       (mkServerSentEvent (str "message") (str "test") (str "123") None)
     = lastValidId [str "id: 123"; []; str "data: test"]
  /\ isValidId (str "id: 123") = true
  /\ processLines (createEvent, []) [str "id: 123"; []]
     = ((createEvent, str "123"), []).
Proof.
  split; [left; reflexivity|]. split.
  - exact (proj1 lastEventId_most_recent_valid_id
             [str "id: 123"; []; str "data: test"]
             (mkServerSentEvent (str "message") (str "test") (str "123") None)
             (or_introl eq_refl)).
  - split; [reflexivity|].
    exact (proj2 (proj1 (proj2 (proj2 (proj2
                            (proj2 lastEventId_most_recent_valid_id))))
                    (str "id: 123") createEvent [] eq_refl)).
Defined.

Section RetryValue.

Lemma size_gt_iff (v k : N) : k < N.size v <-> 2 ^ k <= v.
Proof.
  split; intros H.
  - pose proof (N.size_le v) as Hle.
    assert (Hk : 2 ^ (N.succ k) <= 2 ^ N.size v)
      by (apply N.pow_le_mono_r; lia).
    rewrite N.pow_succ_r' in Hk. rewrite N.succ_double_spec in Hle. lia.
  - pose proof (N.size_gt v) as Hgt.
    apply (N.pow_lt_mono_r_iff 2); lia.
Qed.

(** From [2^53] on, [toNumber] rounds to 53 significant bits. *)
Lemma toNumber_rounds (n : N) :
  2 ^ 53 <= n ->
  exists v,
    roundedTo n (N.size n - 53) v
    /\ toNumber n = if v <? 2 ^ 1024 then Finite v else Infinity.
Proof.
  intros Hn. unfold toNumber.
  destruct (N.ltb_spec n (2 ^ 53)) as [Hlt|_]; [lia|].
  assert (Hsize : 53 < N.size n) by (apply size_gt_iff; exact Hn).
  set (e := N.size n - 53).
  assert (He : e = N.succ (e - 1)) by lia.
  assert (HE : 2 ^ e = 2 * 2 ^ (e - 1))
    by (rewrite He at 1; apply N.pow_succ_r').
  rewrite N.shiftr_div_pow2, N.land_ones, !N.shiftl_mul_pow2, N.mul_1_l.
  assert (Hpos : 2 ^ e <> 0) by (apply N.pow_nonzero; discriminate).
  pose proof (N.div_mod' n (2 ^ e)) as Hdm.
  pose proof (N.mod_lt n (2 ^ e) Hpos) as Hr.
  set (q := n / 2 ^ e) in *. set (r := n mod 2 ^ e) in *.
  set (E := 2 ^ e) in *. set (H := 2 ^ (e - 1)) in *.
  set (q' := if (H <? r) || (H =? r) && N.odd q then q + 1 else q).
  exists (q' * E). split.
  - exists q'. split; [reflexivity|]. unfold q'.
    destruct (N.ltb_spec H r) as [H1|H1]; cbn [orb].
    + repeat split; nia.
    + destruct (N.eqb_spec H r) as [H2|H2]; cbn [andb].
      * destruct (N.odd q) eqn:Ho.
        -- repeat split; try nia. intros _.
           rewrite N.add_1_r, N.even_succ. exact Ho.
        -- repeat split; try nia. intros _.
           rewrite <- N.negb_odd, Ho. reflexivity.
      * repeat split; nia.
  - fold q'.
    destruct (N.ltb_spec (q' * E) (2 ^ 1024)) as [Hv|Hv];
      destruct (N.ltb_spec 1024 (N.size (q' * E))) as [Hs|Hs];
      try reflexivity; exfalso.
    + apply size_gt_iff in Hs. lia.
    + apply size_gt_iff in Hv. lia.
Qed.

Lemma toNumber_numberOf (n : N) : numberOf n (toNumber n).
Proof.
  unfold numberOf. destruct (N.ltb_spec n (2 ^ 53)) as [Hlt|Hge].
  - unfold toNumber. apply N.ltb_lt in Hlt. rewrite Hlt. reflexivity.
  - apply toNumber_rounds. exact Hge.
Qed.

(** Rounding leaves no choice. *)
Lemma roundedTo_unique (n e v1 v2 : N) :
  roundedTo n e v1 -> roundedTo n e v2 -> v1 = v2.
Proof.
  intros (q1 & -> & A1 & B1 & T1) (q2 & -> & A2 & B2 & T2).
  assert (Hpos : 0 < 2 ^ e)
    by (apply N.neq_0_lt_0, N.pow_nonzero; discriminate).
  set (E := 2 ^ e) in *.
  destruct (N.lt_trichotomy q1 q2) as [Hlt|[->|Hgt]]; [|reflexivity|];
    exfalso.
  - assert (q2 = q1 + 1) by nia. subst q2.
    assert (N.even q1 = true) by (apply T1; nia).
    assert (N.even (q1 + 1) = true) by (apply T2; nia).
    rewrite N.add_1_r, N.even_succ, <- N.negb_even in *.
    destruct (N.even q1); discriminate.
  - assert (q1 = q2 + 1) by nia. subst q1.
    assert (N.even q2 = true) by (apply T2; nia).
    assert (N.even (q2 + 1) = true) by (apply T1; nia).
    rewrite N.add_1_r, N.even_succ, <- N.negb_even in *.
    destruct (N.even q2); discriminate.
Qed.

Lemma numberOf_unique (n : N) (x y : Number) :
  numberOf n x -> numberOf n y -> x = y.
Proof.
  unfold numberOf. destruct (n <? 2 ^ 53); [congruence|].
  intros (v1 & R1 & ->) (v2 & R2 & ->).
  rewrite (roundedTo_unique _ _ _ _ R1 R2). reflexivity.
Qed.

Lemma last_map_option {A B C : Type} (g : B -> C) (h : A -> B)
  (xs : list A) :
  forall d,
    last (map (fun l => Some (g (h l))) xs) (option_map g d)
    = option_map g (last (map (fun l => Some (h l)) xs) d).
Proof.
  induction xs as [|x xs IH]; intros d; [reflexivity|].
  cbn [map]. rewrite !last_cons_default.
  exact (IH (Some (h x))).
Qed.

Lemma lastValidRetry_integer (lines : list jsstring) :
  lastValidRetry lines = option_map toNumber (lastValidRetryInteger lines).
Proof.
  unfold lastValidRetry, lastValidRetryInteger, parseInt10.
  exact (last_map_option toNumber (fun l => decimalValue (fieldValue l))
           (filter isValidRetry lines) None).
Qed.

(** The retry of a record, from the integer its event wrote. *)
Lemma retry_of_integer (lines : list jsstring) (x : option Number) :
  x = lastValidRetry lines ->
  match lastValidRetryInteger lines with
  | None => x = None
  | Some n => exists y, x = Some y /\ numberOf n y
  end.
Proof.
  intros ->. rewrite lastValidRetry_integer.
  destruct (lastValidRetryInteger lines) as [n|]; [|reflexivity].
  exists (toNumber n). split; [reflexivity | apply toNumber_numberOf].
Qed.

End RetryValue.

(** The retry of a record is not always the integer its digits denote: the
    value is a Number. The digits 9007199254740993 give 9007199254740992,
    and 401 digits 9 give [Infinity]. *)
Lemma retry_is_not_always_the_integer :
  isValidRetry (str "retry: 9007199254740993") = true
  /\ decimalValue (fieldValue (str "retry: 9007199254740993"))
     = 9007199254740993
  /\ parseText (str "retry: 9007199254740993" ++ [LF] ++ str "data: x"
                ++ [LF; LF])
     = [mkServerSentEvent (str "message") (str "x") []
          (Some (Finite 9007199254740992))]
  /\ parseText (str "retry: " ++ repeat 57 401 ++ [LF] ++ str "data: x"
                ++ [LF; LF])
     = [mkServerSentEvent (str "message") (str "x") [] (Some Infinity)]
  /\ ~ (forall lines id r,
           eventLines lines ->
           In r (snd (processLines (createEvent, id) (lines ++ [[]]))) ->
           sse_retry r = option_map Finite (lastValidRetryInteger lines)).
Proof.
  split; [reflexivity|]. split; [reflexivity|].
  split; [vm_compute; reflexivity|]. split; [vm_compute; reflexivity|].
  intros H.
  assert (HL : eventLines [str "retry: 9007199254740993"; str "data: x"])
    by (repeat constructor; discriminate).
  specialize (H _ [] (mkServerSentEvent (str "message") (str "x") []
                        (Some (Finite 9007199254740992)))
                HL (or_introl eq_refl)).
  vm_compute in H. discriminate H.
Qed.

(** C4. The [retry] of every emitted record is present exactly when its
    event has a [retry] field whose value is one or more ASCII digits and
    nothing else, and it is then the Number value of the integer that the
    most recent such field denotes in base 10: that integer below [2^53],
    and from there on the integer rounded to 53 significant bits, ties to
    even, [Infinity] when the rounded value reaches [2^1024]; this fixes the
    value. A [retry] field with another value changes nothing, so it does
    not overwrite an earlier valid one. *)
Theorem retry_most_recent_valid (lines : list jsstring) (id : jsstring) :
  eventLines lines ->
  (forall r,
      In r (snd (processLines (createEvent, id) (lines ++ [[]]))) ->
      match lastValidRetryInteger lines with
      | None => sse_retry r = None
      | Some n => exists x, sse_retry r = Some x /\ numberOf n x
      end)
  /\ (forall st r,
         (event st, lastEventId st)
         = fst (processLines (createEvent, id) lines) ->
         In r (flush st) ->
         match lastValidRetryInteger (lines ++ pendingLine (buffer st)) with
         | None => sse_retry r = None
         | Some n => exists x, sse_retry r = Some x /\ numberOf n x
         end)
  /\ (lastValidRetryInteger lines = None <->
      forall l, In l lines -> isValidRetry l = false)
  /\ (forall line ev id',
         isField "retry" line = true -> testDigits (fieldValue line) = false ->
         processField line ev id' = (ev, id'))
  /\ (forall line,
         isValidRetry line = true
         <-> isField "retry" line = true
             /\ fieldValue line <> []
             /\ Forall (fun c => 48 <= c <= 57) (fieldValue line))
  /\ (forall n x, n < 2 ^ 53 -> numberOf n x -> x = Finite n)
  /\ (forall n x y, numberOf n x -> numberOf n y -> x = y).
Proof.
  intros H. split; [|split; [|split; [|split; [|split; [|split]]]]].
  - intros r Hr. rewrite processLines_event_blank in Hr by assumption.
    apply (expectedRecords_field sse_retry) in Hr.
    apply retry_of_integer. exact Hr.
  - intros st r Hst Hr. rewrite (flush_event lines id st H Hst) in Hr.
    apply (expectedRecords_field sse_retry) in Hr.
    apply retry_of_integer. exact Hr.
  - unfold lastValidRetryInteger. split.
    + intros Hnone l Hl. destruct (isValidRetry l) eqn:E; [|reflexivity].
      assert (Hin : In l (filter isValidRetry lines))
        by (apply filter_In; split; assumption).
      destruct (filter isValidRetry lines) as [|x xs] eqn:Ef; [destruct Hin|].
      exfalso. clear - Hnone.
      cbn [map] in Hnone. rewrite last_cons_default in Hnone.
      destruct (last_map_Some (fun l => decimalValue (fieldValue l)) xs
                  (decimalValue (fieldValue x))) as [n Hn].
      congruence.
    + intros Hall.
      replace (filter isValidRetry lines) with (@nil jsstring);
        [reflexivity|].
      symmetry. clear H.
      induction lines as [|l lines IH]; [reflexivity|].
      simpl. rewrite (Hall l) by (left; reflexivity).
      apply IH. intros l' Hl'. apply Hall. right. exact Hl'.
  - intros line ev id' Hf Hv. rewrite processField_cases.
    other_field Hf "event"%string. other_field Hf "data"%string.
    other_field Hf "id"%string. rewrite Hf.
    unfold isValidRetry. rewrite Hf, Hv. reflexivity.
  - intros line. unfold isValidRetry.
    rewrite andb_true_iff, testDigits_spec. reflexivity.
  - intros n x Hlt Hx. unfold numberOf in Hx.
    apply N.ltb_lt in Hlt. rewrite Hlt in Hx. exact Hx.
  - apply numberOf_unique.
Qed.

Lemma retry_most_recent_valid_witness :
  eventLines [str "retry: 3000"; str "retry: 1s";
              str "retry: 9007199254740993"; str "data: x"]
  /\ In (mkServerSentEvent (str "message") (str "x") []
           (Some (Finite 9007199254740992)))
       (snd (processLines (createEvent, [])
               ([str "retry: 3000"; str "retry: 1s";
                 str "retry: 9007199254740993"; str "data: x"] ++ [[]])))
  /\ exists x,
      Some (Finite 9007199254740992) = Some x
      /\ numberOf 9007199254740993 x.
Proof.
  assert (H : eventLines [str "retry: 3000"; str "retry: 1s";
                          str "retry: 9007199254740993"; str "data: x"])
    by (repeat constructor; discriminate).
  split; [exact H|]. split; [left; reflexivity|].
  exact (proj1 (retry_most_recent_valid _ [] H)
           (mkServerSentEvent (str "message") (str "x") []
              (Some (Finite 9007199254740992)))
           (or_introl eq_refl)).
Defined.

(** C5. The [type] of every emitted record is the value of the last [event]
    field of its event when that value is not empty, and ["message"] when the
    event has no [event] field or the last one has an empty value; every
    blank line leaves a fresh in-progress event, so the type of an event does
    not depend on the events before it. *)
Theorem type_defaults_and_resets (lines : list jsstring) (id : jsstring) :
  eventLines lines ->
  (forall r,
      In r (snd (processLines (createEvent, id) (lines ++ [[]]))) ->
      sse_type r = emittedType lines)
  /\ (forall st r,
         (event st, lastEventId st)
         = fst (processLines (createEvent, id) lines) ->
         In r (flush st) ->
         sse_type r = emittedType (lines ++ pendingLine (buffer st)))
  /\ (forall a, fst (fst (processLine a [])) = createEvent)
  /\ (forall a r,
         In r (snd (processLines (fst (processLine a [])) (lines ++ [[]]))) ->
         sse_type r = emittedType lines)
  /\ (lastEventField lines = [] -> emittedType lines = str "message")
  /\ (lastEventField lines <> [] -> emittedType lines = lastEventField lines).
Proof.
  intros H. split; [|split; [|split; [|split; [|split]]]].
  - intros r Hr. rewrite processLines_event_blank in Hr by assumption.
    apply (expectedRecords_field sse_type) in Hr. exact Hr.
  - intros st r Hst Hr. rewrite (flush_event lines id st H Hst) in Hr.
    apply (expectedRecords_field sse_type) in Hr. exact Hr.
  - intros [ev id']. reflexivity.
  - intros [ev id'] r Hr. cbn [processLine fst] in Hr.
    rewrite processLines_event_blank in Hr by assumption.
    apply (expectedRecords_field sse_type) in Hr. exact Hr.
  - unfold emittedType. intros ->. reflexivity.
  - unfold emittedType. destruct (lastEventField lines); congruence.
Qed.

Lemma type_defaults_and_resets_witness :
  eventLines [str "data: second"]
  /\ In (mkServerSentEvent (str "message") (str "second") [] None)
       (snd (processLines
               (fst (processLine
                       ({| type := str "custom"; data := str "first" ++ [LF];
                           retry := None |}, []) []))
               ([str "data: second"] ++ [[]])))
  /\ sse_type (mkServerSentEvent (str "message") (str "second") [] None)
     = str "message".
Proof.
  assert (H : eventLines [str "data: second"])
    by (repeat constructor; discriminate).
  split; [exact H|]. split; [left; reflexivity|].
  exact (proj1 (proj2 (proj2 (proj2 (type_defaults_and_resets _ [] H))))
           ({| type := str "custom"; data := str "first" ++ [LF];
               retry := None |}, [])
           (mkServerSentEvent (str "message") (str "second") [] None)
           (or_introl eq_refl)).
Defined.

(** C6. A line that begins with a colon is ignored and changes no state,
    in the line loop and as the remainder at [flush]; any other non-blank
    line goes to [processField], which takes as field what precedes the first
    colon and as value what follows it, or the whole line and the empty
    string when the line has no colon; one leading space of the value is
    removed and no more; and [processField] acts on that field and that
    value: a [data] line appends the value so split to the data, an [event]
    line makes it the type, a line that is the word [data] alone appends an
    empty value. *)
Theorem line_syntax :
  (forall a rest, processLine a (colon :: rest) = (a, []))
  /\ (forall st rest,
         buffer st = colon :: rest ->
         flush st = dispatchEvent (event st) (lastEventId st))
  /\ (forall line ev id,
         line <> [] -> startsWith line [colon] = false ->
         processLine (ev, id) line = (processField line ev id, []))
  /\ (forall line, ~ In colon line -> splitField line = (line, []))
  /\ (forall f rest,
         ~ In colon f ->
         splitField (f ++ colon :: rest) = (f, stripLeadingSpace rest))
  /\ (forall rest, stripLeadingSpace (space :: rest) = rest)
  /\ (forall c rest, c <> space -> stripLeadingSpace (c :: rest) = c :: rest)
  /\ (forall line field value ev id,
         splitField line = (field, value) ->
         processField line ev id
         = if strictEquals field (str "event") then
             ({| type := value; data := data ev; retry := retry ev |}, id)
           else if strictEquals field (str "data") then
             ({| type := type ev; data := data ev ++ value ++ [LF];
                 retry := retry ev |}, id)
           else if strictEquals field (str "id") then
             (ev, if includes value NUL then id else value)
           else if strictEquals field (str "retry") then
             (if testDigits value
              then {| type := type ev; data := data ev;
                      retry := Some (parseInt10 value) |}
              else ev, id)
           else (ev, id))
  /\ (forall rest ev id,
         processField (str "data" ++ colon :: space :: rest) ev id
         = ({| type := type ev; data := data ev ++ rest ++ [LF];
               retry := retry ev |}, id))
  /\ (forall rest ev id,
         processField (str "event" ++ colon :: rest) ev id
         = ({| type := stripLeadingSpace rest; data := data ev;
               retry := retry ev |}, id))
  /\ (forall ev id,
         processField (str "data") ev id
         = ({| type := type ev; data := data ev ++ [LF];
               retry := retry ev |}, id)).
Proof.
  split; [|split; [|split; [|split; [|split; [|split; [|split; [|split;
    [|split; [|split]]]]]]]]].
  - intros [ev id] rest. reflexivity.
  - intros st rest Hb. unfold flush. rewrite Hb. reflexivity.
  - intros line ev id Hl Hc. rewrite processLine_nonblank by assumption.
    rewrite Hc. reflexivity.
  - apply splitField_no_colon.
  - apply splitField_colon.
  - reflexivity.
  - intros c rest Hc. unfold stripLeadingSpace.
    destruct (N.eqb_spec c space); [contradiction | reflexivity].
  - intros line field value ev id Hs. unfold processField. rewrite Hs.
    destruct (strictEquals field (str "event")); [reflexivity|].
    destruct (strictEquals field (str "data")); [reflexivity|].
    destruct (strictEquals field (str "id")).
    + destruct (includes value NUL); reflexivity.
    + destruct (strictEquals field (str "retry")); [|reflexivity].
      destruct (testDigits value); reflexivity.
  - intros rest ev id. unfold processField.
    rewrite (splitField_colon (str "data") (space :: rest))
      by (cbn; intros [X|[X|[X|[X|[]]]]]; discriminate X).
    reflexivity.
  - intros rest ev id. unfold processField.
    rewrite (splitField_colon (str "event") rest)
      by (cbn; intros [X|[X|[X|[X|[X|[]]]]]]; discriminate X).
    reflexivity.
  - reflexivity.
Qed.

Lemma line_syntax_witness :
  ~ In colon (str "data")
  /\ splitField (str "data:  x") = (str "data", str " x")
  /\ ~ In colon (str "data")
  /\ splitField (str "data") = (str "data", [])
  /\ splitField (str "id: 7:8") = (str "id", str "7:8")
  /\ processField (str "id: 7:8") createEvent [] = (createEvent, str "7:8").
Proof.
  assert (H : ~ In colon (str "data"))
    by (simpl; intros [X|[X|[X|[X|[]]]]]; discriminate X).
  split; [exact H|]. split.
  - exact (proj1 (proj2 (proj2 (proj2 (proj2 line_syntax))))
             (str "data") (str "  x") H).
  - split; [exact H|]. split.
    + exact (proj1 (proj2 (proj2 (proj2 line_syntax))) (str "data") H).
    + split; [reflexivity|].
      exact (proj1 (proj2 (proj2 (proj2 (proj2 (proj2 (proj2
                      (proj2 line_syntax)))))))
               (str "id: 7:8") (str "id") (str "7:8") createEvent []
               eq_refl).
Defined.

(** C7. A chunk that is not a string makes [transform] throw a [TypeError]
    and leaves the buffer, the in-progress event, the last event id and the
    first-chunk flag as they were, with nothing enqueued; the stream then
    ends with that error, keeping only the records of the chunks before; and
    [parseServerSentEvents] throws a [TypeError], instead of returning a
    stream, on a falsy argument and on a response without a body. *)
Theorem usage_errors :
  (forall st bytes,
      transform st (OtherChunk bytes) = (st, [], Some expectsStringChunks))
  /\ (forall st before bytes rest,
         runFrom st (map StringChunk before ++ OtherChunk bytes :: rest)
         = (snd (transformAll st before), Some expectsStringChunks))
  /\ (forall decoder,
         parseServerSentEvents decoder Falsy
         = inl (TypeError "Expected a Response object"))
  /\ (forall decoder,
         parseServerSentEvents decoder (ResponseObject None)
         = inl (TypeError "Expected response to have a body")).
Proof.
  split; [|split; [|split]]; try reflexivity.
  intros st before. revert st.
  induction before as [|f before IH]; intros st bytes rest.
  - reflexivity.
  - cbn [map app runFrom transformAll transform].
    destruct (transformText st f) as [st1 out1].
    rewrite IH.
    destruct (transformAll st1 before) as [st2 out2]. reflexivity.
Qed.

(** C10. A non-blank line enqueues nothing and keeps the data accumulated
    so far, so only a blank line makes a dispatch attempt in the line loop;
    a non-blank line made of spaces only is a field whose name is the whole
    line and whose value is empty, and it changes nothing. *)
Theorem blank_only_dispatch :
  (forall a line,
      line <> [] ->
      snd (processLine a line) = []
      /\ exists suffix,
          data (fst (fst (processLine a line))) = data (fst a) ++ suffix)
  /\ (forall line,
         line <> [] -> Forall (fun c => c = space) line ->
         splitField line = (line, [])
         /\ forall a, processLine a line = (a, [])).
Proof.
  split.
  - intros [ev id] line Hl. rewrite processLine_nonblank by assumption.
    split; [reflexivity|]. cbn [fst].
    destruct (startsWith line [colon]).
    + exists []. rewrite app_nil_r. reflexivity.
    + rewrite processField_cases.
      destruct (isField "event" line);
        [exists []; rewrite app_nil_r; reflexivity|].
      destruct (isField "data" line);
        [exists (fieldValue line ++ [LF]); reflexivity|].
      destruct (isField "id" line);
        [exists []; rewrite app_nil_r; reflexivity|].
      destruct (isField "retry" line);
        [|exists []; rewrite app_nil_r; reflexivity].
      destruct (isValidRetry line); exists []; rewrite app_nil_r; reflexivity.
  - intros line Hl Hsp.
    assert (Hsplit : splitField line = (line, [])).
    { apply splitField_no_colon. intros Hin.
      rewrite Forall_forall in Hsp. apply Hsp in Hin. discriminate Hin. }
    split; [exact Hsplit|].
    intros [ev id]. rewrite processLine_nonblank by assumption.
    destruct line as [|c r]; [congruence|].
    inversion Hsp as [|? ? Hc Hr]; subst.
    assert (Hf : fieldName (space :: r) = space :: r)
      by (unfold fieldName; rewrite Hsplit; reflexivity).
    rewrite processField_cases. unfold isField. rewrite !Hf.
    reflexivity.
Qed.

Lemma blank_only_dispatch_witness :
  [space; space; space] <> []
  /\ Forall (fun c => c = space) [space; space; space]
  /\ splitField [space; space; space] = ([space; space; space], [])
  /\ processLine (createEvent, []) [space; space; space]
     = ((createEvent, []), []).
Proof.
  assert (H1 : [space; space; space] <> []) by discriminate.
  assert (H2 : Forall (fun c => c = space) [space; space; space])
    by (repeat constructor).
  split; [exact H1|]. split; [exact H2|]. split.
  - exact (proj1 (proj2 blank_only_dispatch _ H1 H2)).
  - exact (proj2 (proj2 blank_only_dispatch _ H1 H2) (createEvent, [])).
Defined.

(** ** The line splitter *)

Section Splitter.

Lemma split_nonempty (s : jsstring) : split s <> [].
Proof.
  destruct s as [|c s]; simpl; [discriminate|].
  destruct (c =? CR).
  - destruct s as [|d s]; [discriminate|]. destruct (d =? LF); discriminate.
  - destruct (c =? LF); [discriminate|].
    destruct (split s); discriminate.
Qed.

Lemma split_crlf (s : jsstring) : split (CR :: LF :: s) = [] :: split s.
Proof. reflexivity. Qed.

Lemma split_lf (s : jsstring) : split (LF :: s) = [] :: split s.
Proof. reflexivity. Qed.

Lemma split_cr (s : jsstring) :
  startsWith s [LF] = false -> split (CR :: s) = [] :: split s.
Proof.
  destruct s as [|d s]; [reflexivity|].
  cbn [startsWith]. rewrite andb_true_r. intros H.
  cbn [split]. change (CR =? CR) with true. cbv iota. rewrite H. reflexivity.
Qed.

Lemma split_char (c : char) (s : jsstring) :
  c <> CR -> c <> LF -> split (c :: s) = consFirst c (split s).
Proof.
  intros H1 H2. cbn [split].
  destruct (N.eqb_spec c CR); [contradiction|].
  destruct (N.eqb_spec c LF); [contradiction|]. reflexivity.
Qed.

(** Induction along the separators [split] finds. *)
Lemma split_ind (P : jsstring -> Prop) :
  P [] ->
  (forall s, P s -> P (CR :: LF :: s)) ->
  (forall s, startsWith s [LF] = false -> P s -> P (CR :: s)) ->
  (forall s, P s -> P (LF :: s)) ->
  (forall c s, c <> CR -> c <> LF -> P s -> P (c :: s)) ->
  forall s, P s.
Proof.
  intros Hnil Hcrlf Hcr Hlf Hc.
  assert (H : forall s, P s /\ forall c, P (c :: s)).
  { induction s as [|d s [IH1 IH2]].
    - split; [exact Hnil|]. intros c.
      destruct (N.eq_dec c CR) as [->|]; [apply Hcr; [reflexivity|exact Hnil]|].
      destruct (N.eq_dec c LF) as [->|]; [apply Hlf; exact Hnil|].
      apply Hc; assumption.
    - split; [apply IH2|]. intros c.
      destruct (N.eq_dec c CR) as [->|].
      + destruct (N.eq_dec d LF) as [->|Hd]; [apply Hcrlf; exact IH1|].
        apply Hcr; [|apply IH2].
        cbn [startsWith]. rewrite andb_true_r. apply N.eqb_neq. exact Hd.
      + destruct (N.eq_dec c LF) as [->|]; [apply Hlf; apply IH2|].
        apply Hc; [assumption..|apply IH2]. }
  intros s. apply H.
Qed.

Lemma removelast_cons {A : Type} (x : A) (l : list A) :
  l <> [] -> removelast (x :: l) = x :: removelast l.
Proof. destruct l; [congruence | reflexivity]. Qed.

Lemma last_cons {A : Type} (x d : A) (l : list A) :
  l <> [] -> last (x :: l) d = last l d.
Proof. destruct l; [congruence | reflexivity]. Qed.

Lemma last_app_nonempty {A : Type} (l1 l2 : list A) (d : A) :
  l2 <> [] -> last (l1 ++ l2) d = last l2 d.
Proof.
  intros H. induction l1 as [|x l1 IH]; [reflexivity|].
  rewrite <- app_comm_cons, last_cons; [exact IH|].
  destruct l1; [exact H | discriminate].
Qed.

Lemma endsWith_cons (c d : char) (s : jsstring) :
  s <> [] -> endsWith (c :: s) [d] = endsWith s [d].
Proof.
  intros H. destruct (exists_last H) as (s' & x & ->).
  rewrite app_comm_cons, !endsWith_snoc. reflexivity.
Qed.

Lemma splitsCRLF_cons (c : char) (s b : jsstring) :
  splitsCRLF (c :: s) b = false -> splitsCRLF s b = false.
Proof.
  unfold splitsCRLF. destruct s as [|d s]; [reflexivity|].
  rewrite endsWith_cons by discriminate. tauto.
Qed.

Lemma startsWith_app (s b : jsstring) (c : char) :
  s <> [] -> startsWith (s ++ b) [c] = startsWith s [c].
Proof. destruct s; [congruence | reflexivity]. Qed.

(** Splitting a text in two pieces that keep every CR LF pair whole: the
    complete lines of the first piece, then the split of its remainder
    followed by the second piece. This is what the buffer implements. *)
Lemma split_app (a b : jsstring) :
  splitsCRLF a b = false ->
  split (a ++ b) = removelast (split a) ++ split (last (split a) [] ++ b).
Proof.
  induction a as [|a IH|a Hlf IH|a IH|c a Hc1 Hc2 IH] using split_ind;
    intros H.
  - reflexivity.
  - apply splitsCRLF_cons, splitsCRLF_cons in H.
    cbn [app]. rewrite !split_crlf, IH by assumption.
    rewrite removelast_cons, last_cons by apply split_nonempty.
    reflexivity.
  - destruct a as [|d a].
    + unfold splitsCRLF in H. cbn in H.
      cbn [app]. rewrite split_cr by exact H. reflexivity.
    + pose proof (splitsCRLF_cons _ _ _ H) as H'.
      change ((CR :: d :: a) ++ b) with (CR :: ((d :: a) ++ b)).
      rewrite (split_cr ((d :: a) ++ b))
        by (rewrite startsWith_app by discriminate; exact Hlf).
      rewrite (split_cr (d :: a)) by exact Hlf.
      rewrite IH by assumption.
      rewrite removelast_cons, last_cons by apply split_nonempty.
      reflexivity.
  - apply splitsCRLF_cons in H.
    cbn [app]. rewrite !split_lf, IH by assumption.
    rewrite removelast_cons, last_cons by apply split_nonempty.
    reflexivity.
  - apply splitsCRLF_cons in H.
    cbn [app]. rewrite !split_char, IH by assumption.
    pose proof (split_nonempty a) as Hne.
    destruct (split a) as [|l [|l2 ls]]; [congruence| |].
    + cbn [removelast last app consFirst].
      rewrite split_char by assumption. reflexivity.
    + rewrite (removelast_cons l) by discriminate.
      cbn [consFirst].
      rewrite (removelast_cons (c :: l)) by discriminate.
      rewrite (last_cons l), (last_cons (c :: l)) by discriminate.
      reflexivity.
Qed.

Lemma linesOf_app (a b : jsstring) :
  splitsCRLF a b = false ->
  linesOf (a ++ b) = linesOf a ++ linesOf (restOf a ++ b).
Proof.
  intros H. unfold linesOf, restOf. rewrite split_app by assumption.
  apply removelast_app, split_nonempty.
Qed.

Lemma restOf_app (a b : jsstring) :
  splitsCRLF a b = false -> restOf (a ++ b) = restOf (restOf a ++ b).
Proof.
  intros H. unfold restOf at 1. rewrite split_app by assumption.
  apply last_app_nonempty, split_nonempty.
Qed.

End Splitter.

(** ** Fragments *)

Section Fragments.

Lemma pop_split (s : jsstring) :
  pop (split s) = (linesOf s, Some (restOf s)).
Proof.
  unfold pop, linesOf, restOf. pose proof (split_nonempty s).
  destruct (split s); [congruence | reflexivity].
Qed.

(** After the first chunk, [transform] works on the chunk as it is. *)
Lemma transformText_later (st : State) (chunk : jsstring) :
  isFirstChunk st = false ->
  transformText st chunk
  = (let '((ev, id), out) :=
       processLines (event st, lastEventId st)
         (linesOf (buffer st ++ chunk)) in
     ({| buffer := restOf (buffer st ++ chunk); isFirstChunk := false;
         event := ev; lastEventId := id |}, out)).
Proof.
  intros H. unfold transformText. rewrite H, pop_split. reflexivity.
Qed.

(** The first chunk is transformed as a later one would be, once a leading
    byte-order mark is removed from it. *)
Lemma transformText_first (st : State) (chunk : jsstring) :
  isFirstChunk st = true ->
  transformText st chunk
  = transformText {| buffer := buffer st; isFirstChunk := false;
                     event := event st; lastEventId := lastEventId st |}
      (replaceLeadingBOM chunk).
Proof.
  intros H. unfold transformText. rewrite H. reflexivity.
Qed.

Lemma stateAfter_flag (text : jsstring) :
  isFirstChunk (stateAfter text) = false.
Proof.
  unfold stateAfter.
  destruct (fst (processLines (createEvent, []) (linesOf text))).
  reflexivity.
Qed.

Lemma stateAfter_fields (text : jsstring) :
  buffer (stateAfter text) = restOf text
  /\ (event (stateAfter text), lastEventId (stateAfter text))
     = fst (processLines (createEvent, []) (linesOf text)).
Proof.
  unfold stateAfter.
  destruct (fst (processLines (createEvent, []) (linesOf text))).
  split; reflexivity.
Qed.

Lemma transformText_stateAfter (before f : jsstring) :
  splitsCRLF before f = false ->
  exists out,
    transformText (stateAfter before) f = (stateAfter (before ++ f), out)
    /\ recordsAfter (before ++ f) = recordsAfter before ++ out.
Proof.
  intros H. rewrite transformText_later by apply stateAfter_flag.
  destruct (stateAfter_fields before) as [Hb He]. rewrite Hb, He.
  unfold recordsAfter, stateAfter.
  rewrite (linesOf_app before f), (restOf_app before f) by assumption.
  rewrite processLines_app.
  destruct (processLines (createEvent, []) (linesOf before)) as [[ev id] o].
  cbn [fst snd].
  destruct (processLines (ev, id) (linesOf (restOf before ++ f)))
    as [[ev2 id2] o2].
  exists o2. split; reflexivity.
Qed.

Lemma transformAll_stateAfter (fragments : list jsstring) :
  forall before,
    noSplitCRLF before fragments = true ->
    exists out,
      transformAll (stateAfter before) fragments
      = (stateAfter (before ++ concat fragments), out)
      /\ recordsAfter (before ++ concat fragments)
         = recordsAfter before ++ out.
Proof.
  induction fragments as [|f fragments IH]; intros before H.
  - exists []. simpl. rewrite !app_nil_r. split; reflexivity.
  - cbn [noSplitCRLF] in H. apply andb_true_iff in H. destruct H as [H1 H2].
    apply negb_true_iff in H1.
    destruct (transformText_stateAfter before f H1) as (o1 & E1 & R1).
    destruct (IH _ H2) as (o2 & E2 & R2).
    exists (o1 ++ o2). cbn [transformAll concat].
    rewrite E1, E2, app_assoc, R2, R1, app_assoc. split; reflexivity.
Qed.

Lemma feedFrom_transformAll (fragments : list jsstring) :
  forall st,
    feedFrom st fragments
    = snd (transformAll st fragments)
      ++ flush (fst (transformAll st fragments)).
Proof.
  induction fragments as [|f fragments IH]; intros st; [reflexivity|].
  cbn [feedFrom transformAll].
  destruct (transformText st f) as [st1 o1]. rewrite IH.
  destruct (transformAll st1 fragments) as [st2 o2].
  simpl. rewrite app_assoc. reflexivity.
Qed.

(** Fragments pushed after the first chunk, CR LF pairs kept whole, give the
    records of the whole text. *)
Lemma feedFrom_stateAfter (fragments : list jsstring) :
  noSplitCRLF [] fragments = true ->
  feedFrom (stateAfter []) fragments
  = recordsAfter (concat fragments) ++ flush (stateAfter (concat fragments)).
Proof.
  intros H. rewrite feedFrom_transformAll.
  destruct (transformAll_stateAfter fragments [] H) as (out & E & R).
  rewrite E. simpl in R. simpl. rewrite R. reflexivity.
Qed.

Lemma parseFragments_first (f : jsstring) (rest : list jsstring) :
  parseFragments (f :: rest)
  = feedFrom (stateAfter []) (replaceLeadingBOM f :: rest).
Proof.
  unfold parseFragments. cbn [feedFrom].
  rewrite transformText_first by reflexivity. reflexivity.
Qed.

Lemma endsWith_BOM (s : jsstring) :
  endsWith (BOM :: s) [CR] = endsWith s [CR].
Proof.
  destruct s as [|c s]; [reflexivity|]. apply endsWith_cons. discriminate.
Qed.

Lemma noSplitCRLF_BOM (fragments : list jsstring) :
  forall before,
    noSplitCRLF (BOM :: before) fragments = noSplitCRLF before fragments.
Proof.
  induction fragments as [|f fragments IH]; intros before; [reflexivity|].
  cbn [noSplitCRLF]. unfold splitsCRLF at 1 2.
  rewrite endsWith_BOM, <- app_comm_cons, IH. reflexivity.
Qed.

Lemma noSplitCRLF_replaceLeadingBOM (f : jsstring) (rest : list jsstring) :
  noSplitCRLF [] (f :: rest) = noSplitCRLF [] (replaceLeadingBOM f :: rest).
Proof.
  cbn [noSplitCRLF]. unfold splitsCRLF. cbn [endsWith rev startsWith andb negb].
  destruct f as [|c f]; [reflexivity|].
  cbn [replaceLeadingBOM].
  destruct (N.eqb_spec c BOM) as [->|]; [|reflexivity].
  cbn [app]. apply noSplitCRLF_BOM.
Qed.

Lemma replaceLeadingBOM_app (f tail : jsstring) :
  startInFirstFragment [f; tail] = true ->
  replaceLeadingBOM (f ++ tail) = replaceLeadingBOM f ++ tail.
Proof.
  destruct f as [|c f].
  - cbn. rewrite app_nil_r.
    destruct tail as [|d tail]; [reflexivity|].
    cbn. rewrite andb_true_r.
    destruct (d =? BOM); [discriminate | reflexivity].
  - intros _. cbn. destruct (c =? BOM); reflexivity.
Qed.

(** Fragmentation invariance: when no boundary separates a CR from the LF
    after it and the first fragment holds the start of the text, the
    fragments give the records of the text pushed in one piece. *)
Lemma fragmentation_invariance (fragments : list jsstring) :
  noSplitCRLF [] fragments = true ->
  startInFirstFragment fragments = true ->
  parseFragments fragments = parseText (concat fragments).
Proof.
  intros Hcr Hbom. unfold parseText.
  destruct fragments as [|f rest]; [reflexivity|].
  rewrite !parseFragments_first.
  rewrite noSplitCRLF_replaceLeadingBOM in Hcr.
  rewrite !feedFrom_stateAfter; [|reflexivity|exact Hcr].
  cbn [concat]. rewrite app_nil_r.
  rewrite replaceLeadingBOM_app; [reflexivity|].
  destruct f; [|reflexivity].
  cbn [startInFirstFragment concat] in *. rewrite app_nil_r. exact Hbom.
Qed.

End Fragments.

(** ** The end of the input *)

Section EndOfInput.

Lemma consFirst_plain (c : char) (pieces : list jsstring) :
  c <> CR -> c <> LF ->
  Forall noTerminator pieces -> Forall noTerminator (consFirst c pieces).
Proof.
  intros H1 H2 H. destruct pieces as [|l ls]; cbn [consFirst].
  - repeat constructor; assumption.
  - inversion H; subst. constructor; [|assumption].
    constructor; [split|]; assumption.
Qed.

(** The pieces of a split hold no line terminator. *)
Lemma split_pieces_plain (s : jsstring) : Forall noTerminator (split s).
Proof.
  induction s as [|s IH|s Hlf IH|s IH|c s Hc1 Hc2 IH] using split_ind.
  - repeat constructor.
  - rewrite split_crlf. constructor; [constructor | exact IH].
  - rewrite split_cr by assumption. constructor; [constructor | exact IH].
  - rewrite split_lf. constructor; [constructor | exact IH].
  - rewrite split_char by assumption. apply consFirst_plain; assumption.
Qed.

Lemma Forall_last {A : Type} (P : A -> Prop) (l : list A) (d : A) :
  Forall P l -> l <> [] -> P (last l d).
Proof.
  intros H Hne. destruct (exists_last Hne) as (l' & x & ->).
  rewrite last_last. apply Forall_app in H. destruct H as [_ H].
  inversion H; assumption.
Qed.

Lemma restOf_plain (s : jsstring) : noTerminator (restOf s).
Proof.
  unfold restOf.
  apply (Forall_last noTerminator);
    [apply split_pieces_plain | apply split_nonempty].
Qed.

(** A string without terminators stays in front of the first piece. *)
Lemma split_plain_app (b t : jsstring) :
  noTerminator b ->
  split (b ++ t) = (b ++ hd [] (split t)) :: tl (split t).
Proof.
  induction 1 as [|c b [Hc1 Hc2] Hb IH].
  - pose proof (split_nonempty t). cbn [app].
    destruct (split t); [congruence | reflexivity].
  - cbn [app]. rewrite split_char, IH by assumption. reflexivity.
Qed.

(** A text that ends with a CR has an empty remainder. *)
Lemma restOf_ends_CR (text : jsstring) :
  endsWith text [CR] = true -> restOf text = [].
Proof.
  intros H. destruct text as [|c t] using rev_ind; [discriminate|].
  rewrite endsWith_snoc in H. apply N.eqb_eq in H. subst c.
  rewrite restOf_app.
  - unfold restOf at 1.
    rewrite split_plain_app by apply restOf_plain. reflexivity.
  - unfold splitsCRLF. cbn [startsWith]. change (CR =? LF) with false.
    rewrite andb_false_r. reflexivity.
Qed.

Lemma parseText_stateAfter (text : jsstring) :
  parseText text
  = recordsAfter (replaceLeadingBOM text)
    ++ flush (stateAfter (replaceLeadingBOM text)).
Proof.
  unfold parseText. rewrite parseFragments_first.
  rewrite feedFrom_stateAfter by reflexivity.
  cbn [concat]. rewrite app_nil_r. reflexivity.
Qed.

(** The end of the input acts on an unterminated last line as a line
    terminator followed by a blank line would. *)
Lemma flush_terminates_last_line (text : jsstring) :
  restOf text <> [] ->
  recordsAfter (text ++ [LF; LF]) ++ flush (stateAfter (text ++ [LF; LF]))
  = recordsAfter text ++ flush (stateAfter text).
Proof.
  intros Hrest.
  assert (Hcr : splitsCRLF text [LF; LF] = false).
  { unfold splitsCRLF. destruct (endsWith text [CR]) eqn:E; [|reflexivity].
    apply restOf_ends_CR in E. contradiction. }
  assert (Hsplit : split (restOf text ++ [LF; LF]) = [restOf text; []; []]).
  { rewrite split_plain_app by apply restOf_plain.
    cbn. rewrite app_nil_r. reflexivity. }
  rewrite !flush_as_lines.
  destruct (stateAfter_fields text) as [Hb He].
  destruct (stateAfter_fields (text ++ [LF; LF])) as [Hb' He'].
  rewrite Hb, He, Hb', He'. unfold recordsAfter.
  rewrite (restOf_app text [LF; LF]), (linesOf_app text [LF; LF])
    by assumption.
  assert (HL : linesOf (restOf text ++ [LF; LF]) = [restOf text; []])
    by (unfold linesOf; rewrite Hsplit; reflexivity).
  assert (HR : restOf (restOf text ++ [LF; LF]) = [])
    by (unfold restOf at 1; rewrite Hsplit; reflexivity).
  rewrite HL, HR. cbn [pendingLine app].
  rewrite processLines_app.
  destruct (processLines (createEvent, []) (linesOf text)) as [a o].
  cbn [fst snd].
  destruct (restOf text) as [|c r] eqn:Er; [congruence|].
  cbn [pendingLine app].
  match goal with
  | |- context [processLines a ?l] =>
      destruct (processLines a l) as [[ev2 id2] o2] eqn:E2
  end.
  cbn [fst snd].
  assert (Hev : ev2 = createEvent).
  { cbn [processLines] in E2.
    destruct (processLine a (c :: r)) as [[ev1 id1] o1].
    cbn [processLine] in E2. inversion E2. reflexivity. }
  subst ev2. cbn. rewrite !app_nil_r. reflexivity.
Qed.

End EndOfInput.

(** C9. [flush] processes a non-empty remainder of the buffer as the line
    loop processes a line (a remainder beginning with a colon is skipped as
    a comment is) and then makes a dispatch attempt, as for a blank line; so
    a text that ends in the middle of a line gives the records it would give
    with that line terminated and followed by a blank line, and an event in
    progress at the end of the input is emitted when its data is not
    empty. *)
Theorem flush_processes_remainder :
  (forall st,
      flush st
      = snd (processLines (event st, lastEventId st)
               (pendingLine (buffer st) ++ [[]])))
  /\ (forall st,
         buffer st <> [] -> startsWith (buffer st) [colon] = false ->
         flush st
         = let '(ev, id) :=
             processField (buffer st) (event st) (lastEventId st) in
           dispatchEvent ev id)
  /\ (forall st,
         buffer st = [] \/ startsWith (buffer st) [colon] = true ->
         flush st = dispatchEvent (event st) (lastEventId st))
  /\ (forall text,
         restOf (replaceLeadingBOM text) <> [] ->
         parseText text = parseText (text ++ [LF; LF]))
  /\ (forall lines id st,
         eventLines lines ->
         (event st, lastEventId st)
         = fst (processLines (createEvent, id) lines) ->
         flush st
         = expectedRecords (lines ++ pendingLine (buffer st))
             (lastValidIdFrom id (lines ++ pendingLine (buffer st)))).
Proof.
  split; [|split; [|split; [|split]]].
  - apply flush_as_lines.
  - intros st Hb Hc. unfold flush. rewrite Hc.
    destruct (buffer st); [congruence | reflexivity].
  - intros st [Hb|Hc]; unfold flush.
    + rewrite Hb. reflexivity.
    + rewrite Hc. destruct (buffer st); reflexivity.
  - intros text Hrest. rewrite !parseText_stateAfter.
    replace (replaceLeadingBOM (text ++ [LF; LF]))
      with (replaceLeadingBOM text ++ [LF; LF]).
    + symmetry. apply flush_terminates_last_line. exact Hrest.
    + destruct text as [|c t]; [exfalso; apply Hrest; reflexivity|].
      cbn. destruct (c =? BOM); reflexivity.
  - intros lines id st. apply flush_event.
Qed.

Lemma flush_processes_remainder_witness :
  restOf (replaceLeadingBOM (str "data: hello")) <> []
  /\ parseText (str "data: hello")
     = parseText (str "data: hello" ++ [LF; LF])
  /\ parseText (str "data: hello")
     = [mkServerSentEvent (str "message") (str "hello") [] None].
Proof.
  assert (H : restOf (replaceLeadingBOM (str "data: hello")) <> [])
    by discriminate.
  split; [exact H|]. split; [|reflexivity].
  exact (proj1 (proj2 (proj2 (proj2 flush_processes_remainder))) _ H).
Defined.

(** ** Fragment boundaries the stream does not absorb *)

(** A byte-order mark that opens the first fragment is removed, and only
    that one: the rest of the input is parsed as it is. *)
Lemma bom_removed_from_first_fragment (f : jsstring) (rest : list jsstring) :
  parseFragments ((BOM :: f) :: rest) = feedFrom (stateAfter []) (f :: rest).
Proof. apply parseFragments_first. Qed.

Example test_BOM_in_middle_of_stream :
  map sse_data
    (parseText (str "data: first" ++ [LF; LF] ++ str "data: " ++ [BOM]
                ++ str "second" ++ [LF; LF]))
  = [str "first"; BOM :: str "second"].
Proof. reflexivity. Qed.

(** C1. Fragmentation invariance fails where a fragment ends with a CR and
    the next one begins with the LF of the same terminator: the lone CR ends
    the line, the LF then reads as a blank line and dispatches the event in
    progress. The two fragments below give two records, their concatenation
    pushed as one fragment gives one. *)
Theorem crlf_split_across_fragments :
  parseFragments [str "data: a" ++ [CR]; [LF] ++ str "data: b" ++ [LF; LF]]
  = [mkServerSentEvent (str "message") (str "a") [] None;
     mkServerSentEvent (str "message") (str "b") [] None]
  /\ parseText (concat [str "data: a" ++ [CR];
                        [LF] ++ str "data: b" ++ [LF; LF]])
     = [mkServerSentEvent (str "message") (str "a" ++ [LF] ++ str "b") []
          None]
  /\ parseFragments [str "data: a" ++ [CR];
                     [LF] ++ str "data: b" ++ [LF; LF]]
     <> parseText (concat [str "data: a" ++ [CR];
                           [LF] ++ str "data: b" ++ [LF; LF]]).
Proof. repeat split; try reflexivity. discriminate. Qed.

(** C8. The byte-order mark at the start of the text is kept when an empty
    fragment is pushed first: the first call clears [isFirstChunk] and the
    mark that arrives with the second fragment becomes part of the field
    name, so the line is an unknown field and the event has no data. *)
Theorem bom_after_empty_first_fragment :
  parseFragments [[]; BOM :: str "data: x" ++ [LF; LF]] = []
  /\ fieldName (BOM :: str "data: x") = BOM :: str "data"
  /\ parseText (concat [[]; BOM :: str "data: x" ++ [LF; LF]])
     = [mkServerSentEvent (str "message") (str "x") [] None].
Proof. repeat split; reflexivity. Qed.

(** ** Further properties of the line splitter *)

Section SplitterMore.

Lemma normalizeNewlines_cr (s : jsstring) :
  startsWith s [LF] = false ->
  normalizeNewlines (CR :: s) = LF :: normalizeNewlines s.
Proof.
  destruct s as [|d s]; [reflexivity|].
  cbn [startsWith]. rewrite andb_true_r. intros H.
  cbn [normalizeNewlines]. change (CR =? CR) with true. cbv iota.
  rewrite H. reflexivity.
Qed.

Lemma normalizeNewlines_char (c : char) (s : jsstring) :
  c <> CR -> normalizeNewlines (c :: s) = c :: normalizeNewlines s.
Proof.
  intros H. cbn [normalizeNewlines].
  destruct (N.eqb_spec c CR); [contradiction | reflexivity].
Qed.

Lemma joinLF_cons (l : jsstring) (ls : list jsstring) :
  ls <> [] -> joinLF (l :: ls) = l ++ LF :: joinLF ls.
Proof. destruct ls; [congruence | reflexivity]. Qed.

Lemma joinLF_consFirst (c : char) (pieces : list jsstring) :
  pieces <> [] -> joinLF (consFirst c pieces) = c :: joinLF pieces.
Proof.
  destruct pieces as [|l [|l2 ls]]; [congruence|reflexivity|reflexivity].
Qed.

(** The pieces of a split, joined by LF, are the text with its terminators
    normalised. *)
Lemma joinLF_split (s : jsstring) : joinLF (split s) = normalizeNewlines s.
Proof.
  induction s as [|s IH|s Hlf IH|s IH|c s Hc1 Hc2 IH] using split_ind.
  - reflexivity.
  - rewrite split_crlf, joinLF_cons, IH by apply split_nonempty. reflexivity.
  - rewrite split_cr, joinLF_cons, IH, normalizeNewlines_cr
      by (assumption || apply split_nonempty).
    reflexivity.
  - rewrite split_lf, joinLF_cons, IH by apply split_nonempty. reflexivity.
  - rewrite split_char, joinLF_consFirst, IH, normalizeNewlines_char
      by (assumption || apply split_nonempty).
    reflexivity.
Qed.

Lemma split_plain (l : jsstring) : noTerminator l -> split l = [l].
Proof.
  intros H. rewrite <- (app_nil_r l) at 1.
  rewrite split_plain_app by assumption. cbn. rewrite app_nil_r. reflexivity.
Qed.

(** Lines without terminators, joined by LF, split back to themselves. *)
Lemma split_joinLF (lines : list jsstring) :
  lines <> [] -> Forall noTerminator lines -> split (joinLF lines) = lines.
Proof.
  induction lines as [|l lines IH]; [congruence|]. intros _ H.
  inversion H as [|? ? Hl Hrest]; subst.
  destruct lines as [|l2 lines].
  - apply split_plain. exact Hl.
  - rewrite joinLF_cons by discriminate.
    rewrite split_plain_app by assumption.
    rewrite split_lf, IH by (discriminate || assumption).
    cbn. rewrite app_nil_r. reflexivity.
Qed.

Lemma split_normalizeNewlines (s : jsstring) :
  split (normalizeNewlines s) = split s.
Proof.
  rewrite <- joinLF_split.
  apply split_joinLF; [apply split_nonempty | apply split_pieces_plain].
Qed.

Lemma replaceLeadingBOM_normalizeNewlines (s : jsstring) :
  replaceLeadingBOM (normalizeNewlines s)
  = normalizeNewlines (replaceLeadingBOM s).
Proof.
  destruct s as [|c s]; [reflexivity|].
  destruct (N.eqb_spec c BOM) as [->|Hc].
  - reflexivity.
  - assert (Hr : replaceLeadingBOM (c :: s) = c :: s).
    { cbn. destruct (N.eqb_spec c BOM); [contradiction | reflexivity]. }
    rewrite Hr.
    assert (Hhead : exists d rest,
               normalizeNewlines (c :: s) = d :: rest /\ d <> BOM).
    { cbn [normalizeNewlines]. destruct (c =? CR).
      - destruct s as [|d s]; [|destruct (d =? LF)];
          eexists; eexists; (split; [reflexivity | discriminate]).
      - eexists; eexists; split; [reflexivity | exact Hc]. }
    destruct Hhead as (d & rest & -> & Hd).
    cbn. destruct (N.eqb_spec d BOM); [contradiction | reflexivity].
Qed.

Lemma ends_terminator_cons (c : char) (pre : jsstring) :
  (pre = [] -> c = CR \/ c = LF) ->
  pre = [] \/ endsWith pre [CR] = true \/ endsWith pre [LF] = true ->
  endsWith (c :: pre) [CR] = true \/ endsWith (c :: pre) [LF] = true.
Proof.
  intros Hc Hend. destruct pre as [|p pre].
  - destruct (Hc eq_refl) as [->| ->]; [left | right]; reflexivity.
  - rewrite (endsWith_cons c CR), (endsWith_cons c LF) by discriminate.
    destruct Hend as [H|H]; [discriminate | exact H].
Qed.

(** The remainder of a text is what follows its last line terminator. *)
Lemma restOf_suffix (t : jsstring) :
  exists pre,
    t = pre ++ restOf t
    /\ (tl (split t) = [] -> pre = [])
    /\ (pre = [] \/ endsWith pre [CR] = true \/ endsWith pre [LF] = true).
Proof.
  unfold restOf.
  induction t as [|s IH|s Hlf IH|s IH|c s Hc1 Hc2 IH] using split_ind.
  - exists []. repeat split; auto.
  - destruct IH as (pre & E & _ & Hend).
    exists (CR :: LF :: pre). rewrite split_crlf.
    rewrite last_cons by apply split_nonempty.
    split; [cbn; congruence|]. split.
    + cbn [tl]. intros H. destruct (split_nonempty _ H).
    + right. apply ends_terminator_cons; [discriminate|].
      right. apply ends_terminator_cons; [auto | exact Hend].
  - destruct IH as (pre & E & _ & Hend).
    exists (CR :: pre). rewrite split_cr by assumption.
    rewrite last_cons by apply split_nonempty.
    split; [cbn; congruence|]. split.
    + cbn [tl]. intros H. destruct (split_nonempty _ H).
    + right. apply ends_terminator_cons; [auto | exact Hend].
  - destruct IH as (pre & E & _ & Hend).
    exists (LF :: pre). rewrite split_lf.
    rewrite last_cons by apply split_nonempty.
    split; [cbn; congruence|]. split.
    + cbn [tl]. intros H. destruct (split_nonempty _ H).
    + right. apply ends_terminator_cons; [auto | exact Hend].
  - destruct IH as (pre & E & Hsingle & Hend).
    pose proof (restOf_plain s) as Hplain. unfold restOf in Hplain.
    pose proof (split_nonempty s) as Hne.
    rewrite split_char by assumption.
    destruct (split s) as [|l [|l2 ls]] eqn:Es; [congruence| |].
    + specialize (Hsingle eq_refl). subst pre. cbn in E. subst l.
      exists []. cbn. repeat split; auto.
    + exists (c :: pre). cbn [consFirst].
      change (last ((c :: l) :: l2 :: ls) []) with (last (l2 :: ls) []).
      change (last (l :: l2 :: ls) []) with (last (l2 :: ls) [])
        in E, Hplain.
      split; [cbn [app]; f_equal; exact E|].
      split; [cbn [tl]; discriminate|].
      right. apply ends_terminator_cons; [|exact Hend].
      intros ->. exfalso. cbn [app] in E.
      rewrite <- E in Hplain. apply split_plain in Hplain.
      rewrite Hplain in Es. discriminate.
Qed.

End SplitterMore.

(** ** Further properties of [transform] *)

Section TransformMore.

Lemma transformText_buffer (st : State) (chunk : jsstring) :
  buffer (fst (transformText st chunk))
  = restOf (buffer st
            ++ (if isFirstChunk st then replaceLeadingBOM chunk else chunk)).
Proof.
  unfold transformText. rewrite pop_split.
  match goal with
  | |- context [processLines ?a ?l] =>
      destruct (processLines a l) as [[ev id] out]
  end.
  reflexivity.
Qed.

Lemma transformText_lines (st : State) (chunk : jsstring) :
  let text := if isFirstChunk st then replaceLeadingBOM chunk else chunk in
  processLines (event st, lastEventId st) (linesOf (buffer st ++ text))
  = ((event (fst (transformText st chunk)),
      lastEventId (fst (transformText st chunk))),
     snd (transformText st chunk)).
Proof.
  cbv zeta. unfold transformText. rewrite pop_split.
  match goal with
  | |- context [processLines ?a ?l] =>
      destruct (processLines a l) as [[ev id] out]
  end.
  reflexivity.
Qed.

Lemma linesOf_restOf (t : jsstring) : linesOf t ++ [restOf t] = split t.
Proof.
  unfold linesOf, restOf. symmetry.
  apply app_removelast_last, split_nonempty.
Qed.

Lemma linesOf_plain (t : jsstring) : Forall noTerminator (linesOf t).
Proof.
  pose proof (split_pieces_plain t) as H.
  rewrite <- linesOf_restOf in H. apply Forall_app in H. tauto.
Qed.

Lemma replaceLeadingBOM_plain (s : jsstring) :
  noTerminator s -> noTerminator (replaceLeadingBOM s).
Proof.
  intros H. destruct s as [|c s]; [exact H|].
  cbn. destruct (c =? BOM); [inversion H; assumption | exact H].
Qed.

(** The state and the records after fragments that keep CR LF pairs whole,
    in closed form. *)
Lemma transformAll_initial (f : jsstring) (rest : list jsstring) :
  noSplitCRLF [] (f :: rest) = true ->
  transformAll initialState (f :: rest)
  = (stateAfter (replaceLeadingBOM f ++ concat rest),
     recordsAfter (replaceLeadingBOM f ++ concat rest)).
Proof.
  intros H. rewrite noSplitCRLF_replaceLeadingBOM in H.
  destruct (transformAll_stateAfter _ [] H) as (out & E & R).
  cbn [transformAll] in E |- *.
  rewrite transformText_first by reflexivity.
  change {| buffer := buffer initialState; isFirstChunk := false;
            event := event initialState;
            lastEventId := lastEventId initialState |}
    with (stateAfter []).
  destruct (transformText (stateAfter []) (replaceLeadingBOM f))
    as [st1 o1].
  destruct (transformAll st1 rest) as [st2 o2].
  cbn [app concat] in E, R. rewrite R. exact E.
Qed.

End TransformMore.

(** X1. Fragments that cut no CR LF pair and whose first fragment holds the
    start of the text leave the stream in the state, and with the records
    enqueued, that the whole text pushed as one fragment leaves: the buffer,
    the event in progress and the last event id are the same, not only the
    records. *)
Theorem fragments_same_state_and_records (fragments : list jsstring) :
  fragments <> [] ->
  noSplitCRLF [] fragments = true ->
  startInFirstFragment fragments = true ->
  transformAll initialState fragments
  = transformAll initialState [concat fragments].
Proof.
  intros Hne Hcr Hbom. destruct fragments as [|f rest]; [congruence|].
  rewrite !transformAll_initial by (exact Hcr || reflexivity).
  cbn [concat]. rewrite !app_nil_r.
  rewrite replaceLeadingBOM_app; [reflexivity|].
  destruct f; [|reflexivity].
  cbn [startInFirstFragment concat] in *. rewrite app_nil_r. exact Hbom.
Qed.

Lemma fragments_same_state_and_records_witness :
  [str "event: a" ++ [CR; LF] ++ str "da"; str "ta: x" ++ [LF; LF] ++ str "id"]
  <> []
  /\ noSplitCRLF []
       [str "event: a" ++ [CR; LF] ++ str "da";
        str "ta: x" ++ [LF; LF] ++ str "id"] = true
  /\ startInFirstFragment
       [str "event: a" ++ [CR; LF] ++ str "da";
        str "ta: x" ++ [LF; LF] ++ str "id"] = true
  /\ transformAll initialState
       [str "event: a" ++ [CR; LF] ++ str "da";
        str "ta: x" ++ [LF; LF] ++ str "id"]
     = ({| buffer := str "id"; isFirstChunk := false; event := createEvent;
           lastEventId := [] |},
        [mkServerSentEvent (str "a") (str "x") [] None]).
Proof.
  assert (H1 : [str "event: a" ++ [CR; LF] ++ str "da";
                str "ta: x" ++ [LF; LF] ++ str "id"] <> [])
    by discriminate.
  split; [exact H1|]. split; [reflexivity|]. split; [reflexivity|].
  exact (fragments_same_state_and_records _ H1 eq_refl eq_refl).
Defined.

(** X2. After every [transform] call the buffer holds no line terminator,
    and it is what follows the last line terminator of the old buffer
    followed by the chunk (the chunk without its byte-order mark on the
    first call): nothing of the unfinished line is dropped and nothing
    before it is kept. *)
Theorem buffer_is_unterminated_tail (st : State) (chunk : jsstring) :
  let text := if isFirstChunk st then replaceLeadingBOM chunk else chunk in
  let buffer' := buffer (fst (transformText st chunk)) in
  noTerminator buffer'
  /\ exists consumed,
      buffer st ++ text = consumed ++ buffer'
      /\ (consumed = []
          \/ endsWith consumed [CR] = true
          \/ endsWith consumed [LF] = true).
Proof.
  cbv zeta. rewrite transformText_buffer. split; [apply restOf_plain|].
  destruct (restOf_suffix
              (buffer st ++ (if isFirstChunk st then replaceLeadingBOM chunk
                             else chunk))) as (pre & E & _ & Hend).
  exists pre. split; assumption.
Qed.

(** X3. A chunk without a line terminator, arriving on a buffer without
    one, enqueues nothing and leaves the event in progress and the last
    event id as they are: it is only appended to the buffer. No line is
    acted on before its terminator is seen. *)
Theorem chunk_without_terminator_only_buffers (st : State)
  (chunk : jsstring) :
  noTerminator (buffer st) -> noTerminator chunk ->
  transformText st chunk
  = ({| buffer := buffer st
                  ++ (if isFirstChunk st then replaceLeadingBOM chunk
                      else chunk);
        isFirstChunk := false; event := event st;
        lastEventId := lastEventId st |}, []).
Proof.
  intros Hb Hc.
  assert (Ht : noTerminator
                 (buffer st ++ (if isFirstChunk st
                                then replaceLeadingBOM chunk else chunk))).
  { apply Forall_app. split; [exact Hb|].
    destruct (isFirstChunk st);
      [apply replaceLeadingBOM_plain|]; exact Hc. }
  unfold transformText. rewrite split_plain by exact Ht. reflexivity.
Qed.

Lemma chunk_without_terminator_only_buffers_witness :
  noTerminator (str "data: par") /\ noTerminator (str "t 2")
  /\ transformText
       {| buffer := str "data: par"; isFirstChunk := false;
          event := {| type := []; data := str "part 1" ++ [LF];
                      retry := None |};
          lastEventId := [] |} (str "t 2")
     = ({| buffer := str "data: part 2"; isFirstChunk := false;
           event := {| type := []; data := str "part 1" ++ [LF];
                       retry := None |};
           lastEventId := [] |}, []).
Proof.
  assert (H1 : noTerminator (str "data: par"))
    by (repeat constructor; discriminate).
  assert (H2 : noTerminator (str "t 2"))
    by (repeat constructor; discriminate).
  split; [exact H1|]. split; [exact H2|].
  exact (chunk_without_terminator_only_buffers
           {| buffer := str "data: par"; isFirstChunk := false;
              event := {| type := []; data := str "part 1" ++ [LF];
                          retry := None |};
              lastEventId := [] |} (str "t 2") H1 H2).
Defined.

(** X4. Every [transform] call hands to the line loop lines without
    terminators which, followed by the new buffer and joined by LF, are the
    old buffer followed by the chunk with each terminator (CR LF, CR or LF)
    written as one LF: the text is neither lost nor duplicated between the
    lines acted on and the buffer. *)
Theorem transform_accounts_for_text (st : State) (chunk : jsstring) :
  let text := if isFirstChunk st then replaceLeadingBOM chunk else chunk in
  let st' := fst (transformText st chunk) in
  exists lines,
    processLines (event st, lastEventId st) lines
    = ((event st', lastEventId st'), snd (transformText st chunk))
    /\ Forall noTerminator lines
    /\ joinLF (lines ++ [buffer st'])
       = normalizeNewlines (buffer st ++ text).
Proof.
  cbv zeta.
  exists (linesOf (buffer st ++ (if isFirstChunk st
                                 then replaceLeadingBOM chunk else chunk))).
  split; [apply transformText_lines|]. split; [apply linesOf_plain|].
  rewrite transformText_buffer, linesOf_restOf. apply joinLF_split.
Qed.

(** X5. The three line terminators are interchangeable: a text and the same
    text with every CR LF and every lone CR written as LF give the same
    records. *)
Theorem line_terminators_equivalent (text : jsstring) :
  parseText (normalizeNewlines text) = parseText text.
Proof.
  rewrite !parseText_stateAfter, replaceLeadingBOM_normalizeNewlines.
  unfold recordsAfter, stateAfter, linesOf, restOf.
  rewrite split_normalizeNewlines. reflexivity.
Qed.

(** ** Further properties of the event assembler *)

Section AssemblerMore.

Lemma processLines_cons (a : Assembler) (l : jsstring)
  (lines : list jsstring) :
  processLines a (l :: lines)
  = (fst (processLines (fst (processLine a l)) lines),
     snd (processLine a l)
     ++ snd (processLines (fst (processLine a l)) lines)).
Proof.
  cbn [processLines]. destruct (processLine a l) as [a1 o1].
  cbn [fst snd]. destruct (processLines a1 lines) as [a2 o2]. reflexivity.
Qed.

(** An invariant of the event in progress and the last event id, kept by
    [processField] on the lines [L] admits, holds along the line loop and
    gives a property of every record enqueued. *)
Lemma processLines_invariant (I : Assembler -> Prop)
  (P : ServerSentEvent -> Prop) (L : jsstring -> Prop) :
  (forall ev id, I (ev, id) -> I (createEvent, id)) ->
  (forall ev id r, I (ev, id) -> In r (dispatchEvent ev id) -> P r) ->
  (forall line ev id, L line -> I (ev, id) -> I (processField line ev id)) ->
  forall lines a,
    Forall L lines -> I a ->
    I (fst (processLines a lines))
    /\ forall r, In r (snd (processLines a lines)) -> P r.
Proof.
  intros Hnew Hdisp Hfield.
  induction lines as [|l lines IH]; intros [ev id] HL Ha.
  - split; [exact Ha | intros r []].
  - inversion HL as [|? ? Hl Hrest]; subst.
    rewrite processLines_cons. cbn [fst snd].
    assert (H1 : I (fst (processLine (ev, id) l))
                 /\ forall r, In r (snd (processLine (ev, id) l)) -> P r).
    { destruct l as [|c r0].
      - cbn [processLine fst snd]. split; [exact (Hnew ev id Ha)|].
        intros r Hr. exact (Hdisp ev id r Ha Hr).
      - rewrite processLine_nonblank by discriminate. cbn [fst snd].
        split; [|intros r []].
        destruct (startsWith (c :: r0) [colon]);
          [exact Ha | apply Hfield; assumption]. }
    destruct H1 as [I1 P1].
    destruct (IH _ Hrest I1) as [I2 P2].
    split; [exact I2|]. intros r Hr.
    apply in_app_or in Hr. destruct Hr as [Hr|Hr]; auto.
Qed.

(** The record of a dispatch attempt, when there is one. *)
Lemma dispatchEvent_In (ev : Event) (id : jsstring) (r : ServerSentEvent) :
  In r (dispatchEvent ev id) ->
  r = {| sse_type := match type ev with
                     | [] => str "message"
                     | _ :: _ => type ev
                     end;
         sse_data := if endsWith (data ev) [LF]
                     then removelast (data ev) else data ev;
         sse_lastEventId := id;
         sse_retry := retry ev |}
  /\ (if endsWith (data ev) [LF] then removelast (data ev) else data ev)
     <> [].
Proof.
  unfold dispatchEvent. rewrite slice_drop_last.
  destruct (endsWith (data ev) [LF]).
  - destruct (removelast (data ev)); [intros []|].
    intros [<-|[]]. split; [reflexivity | discriminate].
  - destruct (data ev); [intros []|].
    intros [<-|[]]. split; [reflexivity | discriminate].
Qed.

Lemma dispatchEvent_nonempty (ev : Event) (id : jsstring)
  (r : ServerSentEvent) :
  In r (dispatchEvent ev id) -> sse_data r <> [] /\ sse_type r <> [].
Proof.
  intros H. apply dispatchEvent_In in H. destruct H as [-> Hd].
  cbn [sse_data sse_type]. split; [exact Hd|].
  destruct (type ev); discriminate.
Qed.

(** A property of the records of every [transform] and [flush] call holds
    of the records of every run. *)
Lemma runFrom_invariant (J : State -> Prop) (P : ServerSentEvent -> Prop) :
  (forall st chunk,
      J st ->
      J (fst (transformText st chunk))
      /\ forall r, In r (snd (transformText st chunk)) -> P r) ->
  (forall st r, J st -> In r (flush st) -> P r) ->
  forall chunks st,
    J st -> forall r, In r (fst (runFrom st chunks)) -> P r.
Proof.
  intros Htr Hfl. induction chunks as [|c chunks IH]; intros st HJ r Hr.
  - exact (Hfl st r HJ Hr).
  - cbn [runFrom] in Hr. destruct c as [text|bytes].
    + cbn [transform] in Hr. destruct (Htr st text HJ) as [HJ1 HP1].
      destruct (transformText st text) as [st1 o1]. cbn [fst snd] in *.
      specialize (IH st1 HJ1 r).
      destruct (runFrom st1 chunks) as [o2 err]. cbn [fst] in *.
      apply in_app_or in Hr. destruct Hr as [Hr|Hr]; auto.
    + destruct Hr.
Qed.

Lemma first_occurrence (c : char) (s : jsstring) :
  In c s -> exists f rest, s = f ++ c :: rest /\ ~ In c f.
Proof.
  induction s as [|x s IH]; [intros []|]. intros H.
  destruct (N.eq_dec x c) as [->|Hx].
  - exists [], s. split; [reflexivity | intros []].
  - destruct H as [H|H]; [contradiction|].
    destruct (IH H) as (f & rest & -> & Hf).
    exists (x :: f), rest. split; [reflexivity|].
    intros [E|E]; [contradiction | exact (Hf E)].
Qed.

(** The value of a line is made of characters of the line. *)
Lemma fieldValue_incl (line : jsstring) (c : char) :
  In c (fieldValue line) -> In c line.
Proof.
  unfold fieldValue.
  destruct (in_dec N.eq_dec colon line) as [Hin|Hout].
  - destruct (first_occurrence _ _ Hin) as (f & rest & -> & Hf).
    rewrite splitField_colon by assumption. cbn [snd]. intros H.
    apply in_or_app. right. right.
    destruct rest as [|x rest]; [destruct H|].
    cbn in H. destruct (x =? space); [right|]; exact H.
  - rewrite splitField_no_colon by assumption. intros [].
Qed.

Lemma fieldValue_plain (line : jsstring) :
  noTerminator line -> noTerminator (fieldValue line).
Proof.
  unfold noTerminator. rewrite !Forall_forall. intros H c Hc.
  apply H, fieldValue_incl, Hc.
Qed.

Lemma In_removelast {A : Type} (x : A) (l : list A) :
  In x (removelast l) -> In x l.
Proof.
  destruct l as [|a l]; [intros []|]. intros H.
  rewrite (app_removelast_last a (l := a :: l)) by discriminate.
  apply in_or_app. left. exact H.
Qed.

Lemma noTerminator_no_CR (s : jsstring) : noTerminator s -> ~ In CR s.
Proof.
  unfold noTerminator. rewrite Forall_forall. intros H Hin.
  destruct (H _ Hin) as [Hcr _]. congruence.
Qed.

Lemma processField_lineSafe (line : jsstring) (ev : Event) (id : jsstring) :
  noTerminator line ->
  lineSafeAssembler (ev, id) -> lineSafeAssembler (processField line ev id).
Proof.
  intros Hl (Ht & Hi & Hn & Hd). cbn [fst snd] in *.
  pose proof (fieldValue_plain line Hl) as Hv.
  rewrite processField_cases. unfold lineSafeAssembler.
  destruct (isField "event" line); [cbn; tauto|].
  destruct (isField "data" line).
  { cbn. repeat split; try assumption. intros Hin.
    apply in_app_or in Hin. destruct Hin as [Hin|Hin]; [tauto|].
    apply in_app_or in Hin. destruct Hin as [Hin|Hin].
    - exact (noTerminator_no_CR _ Hv Hin).
    - destruct Hin as [E|[]]. discriminate E. }
  destruct (isField "id" line).
  { cbn [fst snd]. destruct (isValidId line) eqn:E; [|tauto].
    repeat split; try assumption.
    unfold isValidId in E. apply andb_true_iff in E. destruct E as [_ E].
    apply negb_true_iff in E. intros Hin. apply includes_spec in Hin.
    congruence. }
  destruct (isField "retry" line); [|cbn; tauto].
  destruct (isValidRetry line); cbn; tauto.
Qed.

Lemma dispatchEvent_lineSafe (ev : Event) (id : jsstring)
  (r : ServerSentEvent) :
  lineSafeAssembler (ev, id) -> In r (dispatchEvent ev id) ->
  lineSafeRecord r.
Proof.
  intros (Ht & Hi & Hn & Hd). cbn [fst snd] in *.
  intros H. apply dispatchEvent_In in H. destruct H as [-> _].
  unfold lineSafeRecord. cbn [sse_type sse_data sse_lastEventId].
  repeat split; try assumption.
  - destruct (type ev); [|exact Ht]. repeat constructor; discriminate.
  - destruct (endsWith (data ev) [LF]); [|exact Hd].
    intros Hin. apply Hd, In_removelast, Hin.
Qed.

Lemma transformText_lineSafe (st : State) (chunk : jsstring) :
  lineSafeState st ->
  lineSafeState (fst (transformText st chunk))
  /\ forall r, In r (snd (transformText st chunk)) -> lineSafeRecord r.
Proof.
  intros [Hb Ha].
  pose proof (transformText_lines st chunk) as Hlines. cbv zeta in Hlines.
  destruct (processLines_invariant lineSafeAssembler lineSafeRecord
              noTerminator
              (fun ev id H => ltac:(unfold lineSafeAssembler in *;
                                    cbn in *; repeat split;
                                    try tauto; constructor))
              (fun ev id r => dispatchEvent_lineSafe ev id r)
              (fun line ev id => processField_lineSafe line ev id)
              _ _ (linesOf_plain
                     (buffer st ++ (if isFirstChunk st
                                    then replaceLeadingBOM chunk
                                    else chunk))) Ha) as [HI HP].
  pose proof (f_equal fst Hlines) as E1.
  pose proof (f_equal snd Hlines) as E2. cbn [fst snd] in E1, E2.
  split; [split|].
  - rewrite transformText_buffer. apply restOf_plain.
  - rewrite <- E1. exact HI.
  - rewrite <- E2. exact HP.
Qed.

Lemma flush_lineSafe (st : State) (r : ServerSentEvent) :
  lineSafeState st -> In r (flush st) -> lineSafeRecord r.
Proof.
  intros [Hb Ha]. rewrite flush_as_lines.
  assert (HL : Forall noTerminator (pendingLine (buffer st) ++ [[]])).
  { apply Forall_app. split.
    - destruct (buffer st); constructor; [assumption | constructor].
    - repeat constructor. }
  destruct (processLines_invariant lineSafeAssembler lineSafeRecord
              noTerminator
              (fun ev id H => ltac:(unfold lineSafeAssembler in *;
                                    cbn in *; repeat split;
                                    try tauto; constructor))
              (fun ev id r => dispatchEvent_lineSafe ev id r)
              (fun line ev id => processField_lineSafe line ev id)
              _ _ HL Ha) as [_ HP].
  apply HP.
Qed.

End AssemblerMore.

Section RunsMore.

Lemma transformText_records (P : ServerSentEvent -> Prop) :
  (forall ev id r, In r (dispatchEvent ev id) -> P r) ->
  forall st chunk r, In r (snd (transformText st chunk)) -> P r.
Proof.
  intros HP st chunk r Hr.
  pose proof (f_equal snd (transformText_lines st chunk)) as E.
  cbn [snd] in E. rewrite <- E in Hr.
  refine (proj2 (processLines_invariant (fun _ => True) P (fun _ => True)
                   (fun _ _ _ => Logic.I) (fun ev id r _ => HP ev id r)
                   (fun _ _ _ _ _ => Logic.I) _ _ _ Logic.I) r Hr).
  apply Forall_forall. intros; exact Logic.I.
Qed.

Lemma flush_records (P : ServerSentEvent -> Prop) :
  (forall ev id r, In r (dispatchEvent ev id) -> P r) ->
  forall st r, In r (flush st) -> P r.
Proof.
  intros HP st r. unfold flush.
  destruct (match buffer st with
            | [] => (event st, lastEventId st)
            | _ :: _ =>
                if negb (startsWith (buffer st) [colon])
                then processField (buffer st) (event st) (lastEventId st)
                else (event st, lastEventId st)
            end) as [ev id].
  apply HP.
Qed.

Lemma runFrom_strings (fragments : list jsstring) :
  forall st,
    runFrom st (map StringChunk fragments) = (feedFrom st fragments, None).
Proof.
  induction fragments as [|f fragments IH]; intros st; [reflexivity|].
  cbn [map runFrom transform feedFrom].
  destruct (transformText st f) as [st1 o1]. rewrite IH. reflexivity.
Qed.

Lemma dispatchEvent_length (ev : Event) (id : jsstring) :
  (length (dispatchEvent ev id) <= 1)%nat.
Proof.
  unfold dispatchEvent.
  destruct (endsWith (data ev) [LF]).
  - destruct (slice (data ev) 0 (Some (-1)%Z)); cbn; lia.
  - destruct (data ev); cbn; lia.
Qed.

Lemma inert_line_noop (a : Assembler) (line : jsstring) :
  isInertLine line = true -> processLine a line = (a, []).
Proof.
  destruct a as [ev id]. destruct line as [|c r]; [discriminate|].
  intros H. rewrite processLine_nonblank by discriminate.
  cbn [isInertLine] in H.
  destruct (startsWith (c :: r) [colon]); [reflexivity|].
  cbn [orb] in H. apply negb_true_iff in H.
  apply orb_false_iff in H. destruct H as [H H4].
  apply orb_false_iff in H. destruct H as [H H3].
  apply orb_false_iff in H. destruct H as [H1 H2].
  rewrite processField_cases, H1, H2, H3, H4. reflexivity.
Qed.

Lemma processLines_app_snd (a : Assembler) (xs ys : list jsstring) :
  snd (processLines a (xs ++ ys))
  = snd (processLines a xs) ++ snd (processLines (fst (processLines a xs)) ys).
Proof.
  rewrite processLines_app. destruct (processLines a xs) as [a1 o1].
  cbn [fst snd]. destruct (processLines a1 ys) as [a2 o2]. reflexivity.
Qed.

(** One more line of the event being gathered. *)
Lemma processLine_gathers (id : jsstring) (current : list jsstring)
  (l : jsstring) :
  eventLines current -> l <> [] ->
  processLine (eventAfter createEvent current, lastValidIdFrom id current) l
  = ((eventAfter createEvent (current ++ [l]),
      lastValidIdFrom id (current ++ [l])), []).
Proof.
  intros Hc Hl.
  assert (Hcl : eventLines (current ++ [l])).
  { apply Forall_app. split; [exact Hc|]. constructor; [exact Hl|constructor]. }
  pose proof (processLines_event (current ++ [l]) createEvent id Hcl) as E.
  rewrite processLines_app, (processLines_event current) in E
    by assumption.
  rewrite processLines_cons in E. cbn [processLines fst snd] in E.
  destruct (processLine
              (eventAfter createEvent current, lastValidIdFrom id current) l)
    as [a1 o1].
  cbn [fst snd] in E. rewrite app_nil_r in E. cbn [app] in E.
  exact E.
Qed.

(** The line loop computes the records of the lines, event by event. *)
Lemma processLines_recordsOfLines (lines : list jsstring) :
  forall id current,
    eventLines current ->
    snd (processLines
           (eventAfter createEvent current, lastValidIdFrom id current)
           lines)
    = recordsOfLines id current lines.
Proof.
  induction lines as [|l lines IH]; intros id current Hc; [reflexivity|].
  rewrite processLines_cons. cbn [snd recordsOfLines].
  destruct l as [|c r].
  - cbn [processLine fst snd isBlankLine].
    rewrite dispatchEvent_eventAfter. f_equal.
    rewrite <- (IH (lastValidIdFrom id current) []) by constructor.
    rewrite eventAfter_nil. reflexivity.
  - rewrite processLine_gathers by (assumption || discriminate).
    cbn [fst snd app isBlankLine].
    apply IH. apply Forall_app. split; [exact Hc|].
    constructor; [discriminate | constructor].
Qed.

End RunsMore.

(** X6. Every record enqueued, by any sequence of [transform] calls on any
    chunks from any state and by the final [flush], has a non-empty [data]
    and a non-empty [type]. *)
Theorem records_have_data_and_type (st : State) (chunks : list Chunk)
  (r : ServerSentEvent) :
  In r (fst (runFrom st chunks)) -> sse_data r <> [] /\ sse_type r <> [].
Proof.
  apply (runFrom_invariant (fun _ => True)
           (fun r => sse_data r <> [] /\ sse_type r <> [])); [| |exact Logic.I].
  - intros st0 chunk _. split; [exact Logic.I|].
    exact (transformText_records
             (fun r => sse_data r <> [] /\ sse_type r <> [])
             dispatchEvent_nonempty st0 chunk).
  - intros st0 r0 _.
    exact (flush_records (fun r => sse_data r <> [] /\ sse_type r <> [])
             dispatchEvent_nonempty st0 r0).
Qed.

Lemma records_have_data_and_type_witness :
  In (mkServerSentEvent (str "message") (str "x") [] None)
    (fst (runFrom initialState
            [StringChunk (str "event:" ++ [LF] ++ str "data: x" ++ [LF; LF]);
             StringChunk (str "data");
             OtherChunk [1]]))
  /\ str "x" <> [] /\ str "message" <> [].
Proof.
  split; [left; reflexivity|].
  exact (records_have_data_and_type initialState
           [StringChunk (str "event:" ++ [LF] ++ str "data: x" ++ [LF; LF]);
            StringChunk (str "data");
            OtherChunk [1]]
           (mkServerSentEvent (str "message") (str "x") [] None)
           (or_introl eq_refl)).
Defined.

(** X7. In every record of a run that starts from a line-safe state, that
    is a state whose buffer, event type and last event id hold no CR and no
    LF, whose last event id holds no NUL and whose data in progress holds no
    CR (the initial state is one), the type and the last event id hold no CR
    and no LF, the last event id holds no NUL either, and the data holds no
    CR: the only terminators left in a record are the LF that join its data
    values. *)
Theorem records_are_line_safe (st : State) (chunks : list Chunk)
  (r : ServerSentEvent) :
  lineSafeState st ->
  In r (fst (runFrom st chunks)) -> lineSafeRecord r.
Proof.
  intros Hst. revert r.
  apply (runFrom_invariant lineSafeState lineSafeRecord); [| |exact Hst].
  - intros st0 chunk. apply transformText_lineSafe.
  - intros st0 r0. apply flush_lineSafe.
Qed.

Lemma records_are_line_safe_witness :
  lineSafeState initialState
  /\ In (mkServerSentEvent (str "a") (str "x" ++ [LF] ++ str "y") (str "7")
           None)
       (fst (runFrom initialState
               [StringChunk (str "id: 7" ++ [CR] ++ str "event: a" ++ [CR; LF]
                             ++ str "data: x" ++ [LF] ++ str "data: y")]))
  /\ lineSafeRecord
       (mkServerSentEvent (str "a") (str "x" ++ [LF] ++ str "y") (str "7")
          None).
Proof.
  assert (H : lineSafeState initialState).
  { unfold lineSafeState, lineSafeAssembler, noTerminator. cbn.
    repeat split; try constructor; tauto. }
  split; [exact H|]. split; [left; reflexivity|].
  exact (records_are_line_safe initialState
           [StringChunk (str "id: 7" ++ [CR] ++ str "event: a" ++ [CR; LF]
                         ++ str "data: x" ++ [LF] ++ str "data: y")]
           (mkServerSentEvent (str "a") (str "x" ++ [LF] ++ str "y")
              (str "7") None)
           H (or_introl eq_refl)).
Defined.

(** X8. Comment lines and lines whose field is none of [event], [data],
    [id] and [retry] (a line without a colon that is none of these words
    among them) can be removed from the lines without changing the event in
    progress, the last event id or the records. *)
Theorem inert_lines_are_transparent (a : Assembler)
  (lines : list jsstring) :
  processLines a (filter (fun l => negb (isInertLine l)) lines)
  = processLines a lines.
Proof.
  revert a. induction lines as [|l lines IH]; intros a; [reflexivity|].
  cbn [filter]. destruct (isInertLine l) eqn:E; cbn [negb].
  - rewrite IH, (processLines_cons a l), inert_line_noop by exact E.
    cbn [fst snd app]. destruct (processLines a lines); reflexivity.
  - rewrite !processLines_cons, IH. reflexivity.
Qed.

(** X9. Lines among which there is no [data] field enqueue nothing,
    whatever else they hold, blank lines included, when the event in
    progress has no data yet; and so does the final [flush] when the
    buffered remainder is no [data] field either. *)
Theorem no_data_field_no_record (a : Assembler) (lines : list jsstring) :
  data (fst a) = [] ->
  Forall (fun l => isField "data" l = false) lines ->
  snd (processLines a lines) = []
  /\ forall st,
      (event st, lastEventId st) = fst (processLines a lines) ->
      isField "data" (buffer st) = false ->
      flush st = [].
Proof.
  intros Ha HL.
  assert (Hinv : data (fst (fst (processLines a lines))) = []
                 /\ forall r, In r (snd (processLines a lines)) -> False).
  { apply (processLines_invariant (fun a => data (fst a) = [])
             (fun _ => False)
             (fun l => isField "data" l = false)); try assumption.
    - reflexivity.
    - intros ev id r Hd Hr. cbn [fst] in Hd.
      apply dispatchEvent_In in Hr. destruct Hr as [_ Hr].
      rewrite Hd in Hr. apply Hr. reflexivity.
    - intros line ev id Hl Hd. cbn [fst] in *.
      rewrite processField_cases, Hl.
      destruct (isField "event" line); [exact Hd|].
      destruct (isField "id" line); [exact Hd|].
      destruct (isField "retry" line); [|exact Hd].
      destruct (isValidRetry line); exact Hd. }
  destruct Hinv as [Hd Hnone]. split.
  - destruct (snd (processLines a lines)) as [|r rs]; [reflexivity|].
    destruct (Hnone r (or_introl eq_refl)).
  - intros st Hst Hb.
    destruct (flush st) as [|r rs] eqn:Ef; [reflexivity|]. exfalso.
    assert (Hr : In r (flush st)) by (rewrite Ef; left; reflexivity).
    rewrite flush_as_lines, Hst in Hr.
    refine (proj2 (processLines_invariant (fun a => data (fst a) = [])
                     (fun _ => False)
                     (fun l => isField "data" l = false) _ _ _
                     (pendingLine (buffer st) ++ [[]])
                     (fst (processLines a lines)) _ Hd) r Hr).
    + reflexivity.
    + intros ev id r0 Hd0 Hr0. cbn [fst] in Hd0.
      apply dispatchEvent_In in Hr0. destruct Hr0 as [_ Hr0].
      rewrite Hd0 in Hr0. apply Hr0. reflexivity.
    + intros line ev id Hl Hd0. cbn [fst] in *.
      rewrite processField_cases, Hl.
      destruct (isField "event" line); [exact Hd0|].
      destruct (isField "id" line); [exact Hd0|].
      destruct (isField "retry" line); [|exact Hd0].
      destruct (isValidRetry line); exact Hd0.
    + apply Forall_app. split; [|repeat constructor].
      destruct (buffer st); constructor; [exact Hb | constructor].
Qed.

Lemma no_data_field_no_record_witness :
  data (fst (createEvent, @nil char)) = []
  /\ Forall (fun l => isField "data" l = false)
       [str "event: ping"; str "id: 1"; []; str "retry: 5"; str "datum: x";
        []]
  /\ snd (processLines (createEvent, [])
            [str "event: ping"; str "id: 1"; []; str "retry: 5";
             str "datum: x"; []]) = [].
Proof.
  assert (H : Forall (fun l => isField "data" l = false)
                [str "event: ping"; str "id: 1"; []; str "retry: 5";
                 str "datum: x"; []])
    by (repeat constructor).
  split; [reflexivity|]. split; [exact H|].
  exact (proj1 (no_data_field_no_record (createEvent, []) _ eq_refl H)).
Defined.

(** X11. The records of a text are those of its lines taken event by
    event: the complete lines of the text without its byte-order mark,
    then the unterminated remainder when it is not empty, then a blank
    line, are cut at the blank lines, and each group gives no record or
    the one record that its [data], [event] and [retry] fields and the
    [id] fields seen so far determine. *)
Theorem parseText_by_events (text : jsstring) :
  parseText text
  = recordsOfLines [] []
      (linesOf (replaceLeadingBOM text)
       ++ pendingLine (restOf (replaceLeadingBOM text)) ++ [[]]).
Proof.
  rewrite parseText_stateAfter, flush_as_lines.
  destruct (stateAfter_fields (replaceLeadingBOM text)) as [Hb He].
  rewrite Hb, He. unfold recordsAfter.
  rewrite <- processLines_app_snd. symmetry.
  rewrite <- (processLines_recordsOfLines _ [] []) by constructor.
  reflexivity.
Qed.

(** X12. The line loop enqueues at most one record for each blank line and
    none for the other lines, and [flush] enqueues at most one. *)
Theorem at_most_one_record_per_blank_line (a : Assembler)
  (lines : list jsstring) (st : State) :
  (length (snd (processLines a lines))
   <= length (filter isBlankLine lines))%nat
  /\ (length (flush st) <= 1)%nat.
Proof.
  split.
  - revert a. induction lines as [|l lines IH]; intros a; [cbn; lia|].
    rewrite processLines_cons. cbn [snd filter]. rewrite length_app.
    specialize (IH (fst (processLine a l))).
    destruct a as [ev id]. destruct l as [|c r].
    + cbn [processLine fst snd isBlankLine length] in *.
      pose proof (dispatchEvent_length ev id). lia.
    + rewrite processLine_nonblank in * by discriminate.
      cbn [snd isBlankLine length] in *. lia.
  - unfold flush.
    destruct (match buffer st with
              | [] => (event st, lastEventId st)
              | _ :: _ =>
                  if negb (startsWith (buffer st) [colon])
                  then processField (buffer st) (event st) (lastEventId st)
                  else (event st, lastEventId st)
              end) as [ev id].
    apply dispatchEvent_length.
Qed.

Section BoundariesMore.

Lemma normalizeNewlines_no_CR (s : jsstring) : ~ In CR (normalizeNewlines s).
Proof.
  induction s as [|s IH|s Hlf IH|s IH|c s Hc1 Hc2 IH] using split_ind.
  - intros [].
  - cbn. intros [E|H]; [discriminate E | exact (IH H)].
  - rewrite normalizeNewlines_cr by assumption.
    intros [E|H]; [discriminate E | exact (IH H)].
  - rewrite normalizeNewlines_char by discriminate.
    intros [E|H]; [discriminate E | exact (IH H)].
  - rewrite normalizeNewlines_char by assumption.
    intros [E|H]; [congruence | exact (IH H)].
Qed.

Lemma endsWith_In (s : jsstring) (c : char) :
  endsWith s [c] = true -> In c s.
Proof.
  destruct s as [|x s] using rev_ind; [discriminate|].
  rewrite endsWith_snoc. intros H. apply N.eqb_eq in H. subst.
  apply in_or_app. right. left. reflexivity.
Qed.

Lemma splitsCRLF_normalized (before f : jsstring) :
  splitsCRLF (normalizeNewlines before) f = false.
Proof.
  unfold splitsCRLF.
  destruct (endsWith (normalizeNewlines before) [CR]) eqn:E; [|reflexivity].
  apply endsWith_In in E. destruct (normalizeNewlines_no_CR _ E).
Qed.

Lemma stateAfter_normalizeNewlines (text : jsstring) :
  stateAfter (normalizeNewlines text) = stateAfter text
  /\ recordsAfter (normalizeNewlines text) = recordsAfter text.
Proof.
  unfold stateAfter, recordsAfter, linesOf, restOf.
  rewrite split_normalizeNewlines. split; reflexivity.
Qed.

(** Any fragments at all, after the first chunk. *)
Lemma transformAll_joinFragments (rest : list jsstring) :
  forall before,
    exists out,
      transformAll (stateAfter before) rest
      = (stateAfter (joinFragments before rest), out)
      /\ recordsAfter (joinFragments before rest)
         = recordsAfter before ++ out.
Proof.
  induction rest as [|f rest IH]; intros before.
  - exists []. cbn. rewrite app_nil_r. split; reflexivity.
  - destruct (stateAfter_normalizeNewlines before) as [Es Er].
    destruct (transformText_stateAfter (normalizeNewlines before) f
                (splitsCRLF_normalized before f)) as (o1 & E1 & R1).
    rewrite Es, Er in *.
    destruct (IH (normalizeNewlines before ++ f)) as (o2 & E2 & R2).
    exists (o1 ++ o2). cbn [transformAll joinFragments fold_left].
    rewrite E1. fold (joinFragments (normalizeNewlines before ++ f) rest).
    rewrite E2, R2, R1, app_assoc. split; reflexivity.
Qed.

End BoundariesMore.

(** X13. What any sequence of fragments amounts to, whatever its
    boundaries: the state and the records after the fragments are those of
    one chunk, pushed to a stream past its first chunk, made of the
    fragments put end to end after the line terminators before each
    boundary are written as LF. A CR that ends a fragment is thus a line
    terminator of its own, and an LF that opens the next fragment is
    another one. *)
Theorem fragments_amount_to_joined_text (f : jsstring)
  (rest : list jsstring) :
  transformAll initialState (f :: rest)
  = transformAll {| buffer := []; isFirstChunk := false;
                    event := createEvent; lastEventId := [] |}
      [joinFragments (replaceLeadingBOM f) rest].
Proof.
  change {| buffer := []; isFirstChunk := false; event := createEvent;
            lastEventId := [] |} with (stateAfter []).
  destruct (transformAll_joinFragments (replaceLeadingBOM f :: rest) [])
    as (o1 & E1 & R1).
  destruct (transformAll_joinFragments
              [joinFragments (replaceLeadingBOM f) rest] [])
    as (o2 & E2 & R2).
  cbn [joinFragments fold_left normalizeNewlines app] in E1, R1, E2, R2.
  fold (joinFragments (replaceLeadingBOM f) rest) in E1, R1, E2, R2.
  change (recordsAfter []) with (@nil ServerSentEvent) in R1, R2.
  cbn [app] in R1, R2. rewrite E2, <- R2, R1.
  cbn [transformAll] in E1 |- *.
  rewrite transformText_first by reflexivity.
  change {| buffer := buffer initialState; isFirstChunk := false;
            event := event initialState;
            lastEventId := lastEventId initialState |}
    with (stateAfter []).
  exact E1.
Qed.
